(** * fix_auth.py: the authentication-guard patcher

    A shallow embedding of [fix_auth.py] and the properties of its
    specification.  The script reads [server_with_auth.cpp], replaces every
    occurrence of a stub assignment by an authentication-guarded block that
    embeds the next [response = ...;] statement, writes the text back and
    prints an acknowledgment.

    Text is a list of characters, offsets are natural numbers, a failed
    [str.find] (Python's [-1]) is [None]. *)

From Stdlib Require Import Ascii String.
From stdpp Require Import base list.

Local Open Scope char_scope.

(** ** Text and the Python string primitives the script uses *)

Definition text := list ascii.

Definition str (s : string) : text := list_ascii_of_string s.

(** The double quote and the line feed, by their decimal codes. *)
Definition dq : ascii := "034".
Definition nl : ascii := "010".

Definition spaces (n : nat) : text := replicate n " ".

(** [s.startswith(p)] *)
Fixpoint startswith (p s : text) : bool :=
  match p, s with
  | [], _ => true
  | a :: p', b :: s' => Ascii.eqb a b && startswith p' s'
  | _ :: _, [] => false
  end.

(** [s[i:j]] for [0 <= i], [0 <= j] *)
Definition slice (s : text) (i j : nat) : text := take (j - i) (drop i s).

(** The search loop of [str.find]: [s] is the text from offset [pos] on. *)
Fixpoint find_at (sub s : text) (pos : nat) : option nat :=
  if startswith sub s then Some pos
  else match s with
       | [] => None
       | _ :: s' => find_at sub s' (S pos)
       end.

(** [s.find(sub, start)]: the lowest index [i >= start] with
    [s[i:i+len(sub)] == sub]; [None] stands for [-1]. *)
Definition str_find (sub s : text) (start : nat) : option nat :=
  if (length s <? start)%nat then None else find_at sub (drop start s) start.

(** ** The fragment of [re] the script uses *)

(** A match object: [m.start()], [m.end()], [m.group(0)]. *)
Record Match := mkMatch { m_start : nat; m_end : nat; group0 : text }.

(** The special characters of Python's regular expressions; every other
    character is an ordinary one, which matches itself. *)
Definition re_special (c : ascii) : bool :=
  existsb (Ascii.eqb c)
    ["."; "^"; "$"; "*"; "+"; "?"; "{"; "}"; "["; "]"; "\"; "|"; "("; ")"].

(** [re.compile]: a non-empty pattern of ordinary characters compiles to the
    sequence of those literals.  Other patterns are outside the fragment. *)
Definition re_compile (p : text) : option (list ascii) :=
  match p with
  | [] => None
  | _ :: _ => if forallb (λ c, negb (re_special c)) p then Some p else None
  end.

(** What the scan of [re.sub] and [str.replace] visits: a character
    outside every match, or a match. *)
Inductive piece :=
  | Unmatched (c : ascii)
  | Matched (m : Match).

(** The match object for the literals [lits] found at offset [i]. *)
Definition match_at (lits : list ascii) (i : nat) : Match :=
  mkMatch i (i + length lits) lits.

(** The leftmost, non-overlapping matches of the literals [lits], left to
    right.  [s] is the text from offset [pos] on; [skip] counts the
    characters of [s] still covered by the match found last. *)
Fixpoint scan (lits : list ascii) (skip pos : nat) (s : text) : list piece :=
  match s with
  | [] => []
  | c :: s' =>
      match skip with
      | S k => scan lits k (S pos) s'
      | O =>
          if startswith lits s
          then Matched (match_at lits pos)
                 :: scan lits (length lits - 1) (S pos) s'
          else Unmatched c :: scan lits 0 (S pos) s'
      end
  end.


Definition render (repl : Match → text) (p : piece) : text :=
  match p with Unmatched c => [c] | Matched m => repl m end.

Definition substitute (repl : Match → text) (ps : list piece) : text :=
  concat (map (render repl) ps).

(** [re.sub(pattern, repl, s)] with a callable [repl]: the value the
    callable returns is inserted as it is. *)
Definition re_sub (pattern : text) (repl : Match → text) (s : text)
  : option text :=
  lits ← re_compile pattern; Some (substitute repl (scan lits 0 0 s)).

(** [s.replace(old, new)] *)
Definition str_replace (s old new : text) : text :=
  match old with
  | [] => new ++ flat_map (λ c, c :: new) s
  | _ :: _ => substitute (λ _, new) (scan old 0 0 s)
  end.

(** ** The constants of the script *)

(** [pattern] (line 10) *)
Definition pattern : text :=
  str "std::string user_id = " ++ [dq] ++ str "authenticated_user" ++ [dq]
    ++ str "; // TODO: Extract from JWT".

(** The payload line shared by both replacement texts.  In the source it is
    written with backslash-quote escapes inside a string that is not raw:
    each is a bare double quote, the backslash is not part of the text. *)
Definition unauthorized_line : text :=
  str "response = " ++ [dq] ++ str "{" ++ [dq] ++ str "error" ++ [dq]
    ++ str ":" ++ [dq]
    ++ str "Unauthorized: Invalid or missing authentication token"
    ++ [dq] ++ str "}" ++ [dq] ++ str ";".

Definition guard_lines : text :=
  str "std::string user_id = authenticate_and_get_user_id(headers);"
    ++ [nl] ++ spaces 20 ++ str "if (user_id.empty()) {"
    ++ [nl] ++ spaces 24 ++ unauthorized_line
    ++ [nl] ++ spaces 20 ++ str "} else {".

(** [replacement] (lines 13-18) *)
Definition replacement : text :=
  guard_lines
    ++ [nl] ++ spaces 24 ++ str "// Continue with original logic"
    ++ [nl] ++ spaces 24 ++ str "response =".

(** The f-string of lines 40-45, before and after [{response_assignment}]. *)
Definition block_head : text := guard_lines ++ [nl] ++ spaces 24.
Definition block_tail : text := [nl] ++ spaces 20 ++ str "}".

Definition block (response_assignment : text) : text :=
  block_head ++ response_assignment ++ block_tail.

Definition resp : text := str "response =".
Definition semi : text := str ";".

(** ** The callback and the transformation *)

(** [replace_user_id] (lines 27-47); [content] is the module-level variable
    the function reads. *)
Definition replace_user_id (content : text) (m : Match) : text :=
  let full_match := group0 m in
  let start_pos := m_end m in
  match str_find resp content start_pos with
  | Some next_response =>
      match str_find semi content next_response with
      | Some response_end =>
          let response_assignment :=
            slice content next_response (response_end + 1) in
          let replacement := block response_assignment in
          replacement
      | None => full_match
      end
  | None => full_match
  end.

(** Line 50: [re.sub(pattern, replace_user_id, content)]. *)
Definition patch (content : text) : option text :=
  re_sub pattern (replace_user_id content) content.

(** ** The file system and the script *)

(** The part of the world the script touches: the text of
    [server_with_auth.cpp] as [read()] returns it ([None]: no such file),
    whether it may be opened for reading and for writing, how many
    characters the device has room for in this file ([None]: no limit),
    and the lines printed so far. *)
Record world := mkWorld {
  file : option text;
  readable : bool;
  writable : bool;
  capacity : option nat;
  stdout : list text
}.

Inductive exn := FileNotFoundError | PermissionError | OSError | re_error.

Inductive result (A : Type) :=
  | Ok (a : A)
  | Raise (e : exn).
Arguments Ok {A} a.
Arguments Raise {A} e.

(** A statement of the script: it changes the world and either yields a
    value or raises; a raised exception ends the run. *)
Definition IO (A : Type) : Type := world → world * result A.

#[global] Instance IO_ret : MRet IO := λ A a w, (w, Ok a).
#[global] Instance IO_bind : MBind IO := λ A B k c w,
  match c w with
  | (w', Ok a) => k a w'
  | (w', Raise e) => (w', Raise e)
  end.

Definition raise {A} (e : exn) : IO A := λ w, (w, Raise e).

(** Lines 6-7: [with open(..., 'r') as f: content = f.read()] *)
Definition read_target : IO text := λ w,
  match file w with
  | None => (w, Raise FileNotFoundError)
  | Some t => if readable w then (w, Ok t) else (w, Raise PermissionError)
  end.

(** Lines 53-54: [with open(..., 'w') as f: f.write(new_content)].  Opening
    truncates the file, which gives the device back the room the old text
    took; a device with room for fewer characters than the new text has
    keeps the part it took and raises. *)
Definition write_target (new_content : text) : IO unit := λ w,
  if writable w then
    match capacity w with
    | Some n =>
        if (n <? length new_content)%nat
        then (mkWorld (Some (take n new_content)) (readable w) (writable w)
                (capacity w) (stdout w), Raise OSError)
        else (mkWorld (Some new_content) (readable w) (writable w)
                (capacity w) (stdout w), Ok ())
    | None =>
        (mkWorld (Some new_content) (readable w) (writable w) None (stdout w),
         Ok ())
    end
  else (w, Raise PermissionError).

Definition print (line : text) : IO unit := λ w,
  (mkWorld (file w) (readable w) (writable w) (capacity w)
     (stdout w ++ [line]), Ok ()).

(** A pattern outside the modelled fragment ends the run. *)
Definition compiled {A} (o : option A) : IO A :=
  match o with Some a => mret a | None => raise re_error end.

Definition acknowledgment : text := str "Replacement completed".

(** The script, top to bottom.  [new_content] is assigned twice (lines 21
    and 50); the second assignment hides the first. *)
Definition main : IO unit :=
  content ← read_target;
  let new_content := str_replace content pattern replacement in
  new_content ← compiled (re_sub pattern (replace_user_id content) content);
  write_target new_content;;
  print acknowledgment.

(** The two pipelines the script holds, each on its own: the global literal
    replacement of line 21, and the per-match callback of line 50. *)
Definition main_simple : IO unit :=
  content ← read_target;
  let new_content := str_replace content pattern replacement in
  write_target new_content;;
  print acknowledgment.

Definition main_callback : IO unit :=
  content ← read_target;
  new_content ← compiled (re_sub pattern (replace_user_id content) content);
  write_target new_content;;
  print acknowledgment.

(** ** Vocabulary of the specification *)

(** [p] occurs in [s] at offset [i]; [p] occurs in [s]. *)
Definition occurs_at (p s : text) (i : nat) : Prop := p `prefix_of` drop i s.

Definition occurs (p s : text) : Prop := ∃ a b, s = a ++ p ++ b.

Fixpoint occursb (p s : text) : bool :=
  if startswith p s then true
  else match s with
       | [] => false
       | _ :: s' => occursb p s'
       end.

(** The offsets at which [p] occurs in [s], counted from [pos]. *)
Fixpoint occurrences (p s : text) (pos : nat) : list nat :=
  (if startswith p s then [pos] else [])
    ++ match s with
       | [] => []
       | _ :: s' => occurrences p s' (S pos)
       end.

(** No proper, non-empty suffix of [p] is a prefix of [p]: two occurrences
    of [p] cannot overlap. *)
Definition border_free (p : text) : Prop :=
  ∀ d, 0 < d < length p → ¬ drop d p `prefix_of` p.

Definition border_freeb (p : text) : bool :=
  forallb (λ d, negb (startswith (drop d p) p)) (seq 1 (length p - 1)).

(** The output of the scan over the part [s] of [content] that starts at
    offset [pos]. *)
Definition rewrite_part (content : text) (pos : nat) (s : text) : text :=
  substitute (replace_user_id content) (scan pattern 0 pos s).

(** The anchor occurrence that ends at offset [e] has a following statement:
    a [response =] at or after [e] and a [;] at or after that. *)
Definition following_statement (content : text) (e : nat) : option text :=
  next_response ← str_find resp content e;
  response_end ← str_find semi content next_response;
  Some (slice content next_response (response_end + 1)).

(** Every anchor occurrence of [content] has a following statement. *)
Definition well_formed (content : text) : Prop :=
  ∀ i, occurs_at pattern content i →
       is_Some (following_statement content (i + length pattern)).

Definition well_formedb (content : text) : bool :=
  forallb
    (λ i, match following_statement content (i + length pattern) with
          | Some _ => true
          | None => false
          end)
    (occurrences pattern content 0).

(** The statement that assigns the string literal [literal] to the response
    variable. *)
Definition response_statement (literal : text) : text :=
  resp ++ str " " ++ [dq] ++ literal ++ [dq] ++ semi.

(** The else-branch of a synthesized block holds the statement [stmt]. *)
Definition else_open : text := str "} else {" ++ [nl] ++ spaces 24.
Definition else_close : text := [nl] ++ spaces 20 ++ str "}".

Definition in_else_branch (stmt out : text) : Prop :=
  occurs (else_open ++ stmt ++ else_close) out.

(** The guard of a synthesized block: the empty-identity test and the
    unauthorized payload assigned in its then-branch. *)
Definition guard : text :=
  str "if (user_id.empty()) {" ++ [nl] ++ spaces 24 ++ unauthorized_line.

Definition auth_call : text := str "authenticate_and_get_user_id(headers)".

(** * Properties *)

(** ** Prefixes and occurrences *)

Section occurrences.
Implicit Types p s x y : text.

Lemma startswith_prefix p s : startswith p s = true ↔ p `prefix_of` s.
Proof.
  revert s. induction p as [|a p IH]; intros [|b s]; simpl.
  - split; [intros _; apply prefix_nil | done].
  - split; [intros _; apply prefix_nil | done].
  - split; [done | intros H; by apply prefix_nil_not in H].
  - rewrite andb_true_iff, IH, Ascii.eqb_eq. split.
    + intros [-> H]. by apply prefix_cons.
    + intros H. split;
        [by eapply prefix_cons_inv_1 | by eapply prefix_cons_inv_2].
Qed.

Lemma startswith_false p s : startswith p s = false ↔ ¬ p `prefix_of` s.
Proof.
  rewrite <-startswith_prefix. destruct (startswith p s); naive_solver.
Qed.

Lemma occurs_at_split p s i :
  occurs_at p s i → i ≤ length s →
  s = take i s ++ p ++ drop (i + length p) s.
Proof.
  intros [k Hk] _.
  assert (drop (i + length p) s = k) as ->.
  { by rewrite <-drop_drop, Hk, drop_app_length. }
  by rewrite <-Hk, take_drop.
Qed.

Lemma occurs_at_app p x y : occurs_at p (x ++ p ++ y) (length x).
Proof.
  unfold occurs_at. rewrite drop_app_length. by apply prefix_app_r.
Qed.

Lemma occurs_at_occurs p s i : occurs_at p s i → occurs p s.
Proof.
  intros [k Hk]. exists (take i s), k.
  by rewrite <-Hk, take_drop.
Qed.

Lemma occurs_cons p c s :
  occurs p (c :: s) ↔ p `prefix_of` (c :: s) ∨ occurs p s.
Proof.
  split.
  - intros ([|a0 a] & b & E); simplify_eq/=.
    + left. by exists b.
    + right. by exists a, b.
  - intros [[k ->]|(a & b & ->)].
    + by exists [], k.
    + by exists (c :: a), b.
Qed.

Lemma occurs_nil_r p : occurs p [] ↔ p = [].
Proof.
  split.
  - intros (a & b & E). symmetry in E.
    apply app_eq_nil in E as [_ E]. by apply app_eq_nil in E as [E _].
  - intros ->. by exists [], [].
Qed.

Lemma occursb_occurs p s : occursb p s = true ↔ occurs p s.
Proof.
  induction s as [|c s IH]; simpl.
  - rewrite occurs_nil_r. destruct p; simpl; naive_solver.
  - rewrite occurs_cons, <-IH, <-startswith_prefix.
    destruct (startswith p (c :: s)); [tauto|].
    split; [by right | by intros [?|?]].
Qed.

Lemma occursb_false p s : occursb p s = false ↔ ¬ occurs p s.
Proof. rewrite <-occursb_occurs. destruct (occursb p s); naive_solver. Qed.

Lemma occurs_app_l p x y : occurs p x → occurs p (x ++ y).
Proof.
  intros (a & b & ->). exists a, (b ++ y). by rewrite <-!(assoc_L (++)).
Qed.

Lemma occurs_app_r p x y : occurs p y → occurs p (x ++ y).
Proof.
  intros (a & b & ->). exists (x ++ a), b. by rewrite <-!(assoc_L (++)).
Qed.

Lemma occurs_elem_of p s c : occurs p s → c ∈ p → c ∈ s.
Proof. intros (a & b & ->) ?. rewrite !elem_of_app. auto. Qed.

(** An occurrence in [x ++ y] lies in [x], lies in [y], or has a proper
    non-empty part on each side. *)
Lemma occurs_app_inv p x y :
  occurs p (x ++ y) →
  occurs p x ∨ occurs p y ∨
  ∃ p1 p2, p = p1 ++ p2 ∧ p1 ≠ [] ∧ p2 ≠ [] ∧
           p1 `suffix_of` x ∧ p2 `prefix_of` y.
Proof.
  intros (a & b & E).
  apply app_eq_inv in E as [(k & -> & E)|(k & -> & ->)].
  - apply app_eq_inv in E as [(k' & -> & ->)|(k' & -> & ->)].
    + destruct k as [|c k].
      { right; left. by exists [], b. }
      destruct k' as [|c' k'].
      { left. exists a, []. by rewrite !app_nil_r. }
      right; right. exists (c :: k), (c' :: k').
      split_and!; [done..| |].
      * by exists a.
      * by exists b.
    + left. by exists a, k'.
  - right; left. by exists k, b.
Qed.

(** A character that is not in [p] separates the occurrences of [p]. *)
Lemma occurs_app_sep p x c y :
  c ∉ p → occurs p (x ++ c :: y) → occurs p x ∨ occurs p y.
Proof.
  intros Hc H. apply occurs_app_inv in H as [?|[H|H]]; [by left| |].
  - apply occurs_cons in H as [[k Hk]|?]; [|by right].
    destruct p as [|a p].
    + left. by exists [], x.
    + simplify_eq/=. destruct Hc. left.
  - destruct H as (p1 & p2 & -> & _ & Hp2 & _ & [k Hk]).
    destruct p2 as [|a p2]; [done|]. simplify_eq/=.
    destruct Hc. rewrite elem_of_app. right. left.
Qed.

(** Text made of characters other than the first one of [p] can be
    dropped in front, text without the last one of [p] at the end. *)
Lemma occurs_strip_l a p x y :
  a ∉ x → occurs (a :: p) (x ++ y) → occurs (a :: p) y.
Proof.
  intros Ha. induction x as [|c x IH]; simpl; [done|].
  intros [[k Hk]|H]%occurs_cons.
  - simplify_eq/=. destruct Ha. left.
  - apply IH; [|done]. intros ?. apply Ha. by right.
Qed.

Lemma occurs_strip_r p a x y :
  a ∉ y → occurs (p ++ [a]) (x ++ y) → occurs (p ++ [a]) x.
Proof.
  intros Ha H. apply occurs_app_inv in H as [?|[H|H]]; [done| |].
  - destruct Ha. eapply occurs_elem_of; [done|].
    rewrite elem_of_app. right. left.
  - destruct H as (p1 & p2 & E & _ & Hp2 & _ & [k ->]).
    destruct Ha. rewrite elem_of_app. left.
    destruct (exists_last Hp2) as (q & c & ->).
    rewrite (assoc_L (++)) in E. apply app_inj_tail in E as [_ ->].
    rewrite elem_of_app. right. left.
Qed.
End occurrences.

(** ** [str.find] and slices *)

Section find.
Implicit Types sub p s x y : text.

Lemma prefix_app_le p x y :
  p `prefix_of` x ++ y → length p ≤ length x → p `prefix_of` x.
Proof.
  intros Hp Hle.
  destruct (prefix_weak_total p x (x ++ y)) as [?|Hx];
    [done | by apply prefix_app_r | done |].
  by rewrite (prefix_length_eq _ _ Hx Hle).
Qed.

Lemma occurs_at_length p s i :
  occurs_at p s i → p ≠ [] → i + length p ≤ length s.
Proof.
  intros H%prefix_length Hp. rewrite length_drop in H.
  destruct p; [done|]. simpl in *. lia.
Qed.

Lemma occurs_at_app_l p x y i :
  occurs_at p x i → i ≤ length x → occurs_at p (x ++ y) i.
Proof.
  unfold occurs_at. intros H ?. rewrite drop_app_le by done.
  by apply prefix_app_r.
Qed.

Lemma occurs_at_app_r p x y i :
  occurs_at p (x ++ y) (length x + i) ↔ occurs_at p y i.
Proof. unfold occurs_at. by rewrite drop_app_add. Qed.

Lemma occurs_at_inside p x y i :
  occurs_at p (x ++ y) i → i + length p ≤ length x → occurs_at p x i.
Proof.
  unfold occurs_at. intros H ?. rewrite drop_app_le in H by lia.
  eapply prefix_app_le; [done|]. rewrite length_drop. lia.
Qed.

Lemma find_at_Some sub s pos n :
  find_at sub s pos = Some n ↔
  ∃ k, n = pos + k ∧ k ≤ length s ∧ occurs_at sub s k
       ∧ ∀ j, j < k → ¬ occurs_at sub s j.
Proof.
  revert pos. induction s as [|c s IH]; intros pos; simpl.
  - destruct (startswith sub []) eqn:E.
    + apply startswith_prefix in E. split.
      * intros [= <-]. exists 0. split_and!; [lia|done|done|lia].
      * intros (k & -> & Hk & _). simpl in Hk. f_equal. lia.
    + apply startswith_false in E. split; [done|].
      intros (k & _ & Hk & H & _). simpl in Hk.
      by replace k with 0 in H by lia.
  - destruct (startswith sub (c :: s)) eqn:E.
    + apply startswith_prefix in E. split.
      * intros [= <-]. exists 0. split_and!; [lia|lia|done|lia].
      * intros (k & -> & _ & _ & Hfirst). destruct k as [|k].
        { f_equal. lia. }
        by destruct (Hfirst 0); [lia|].
    + apply startswith_false in E. rewrite IH. split.
      * intros (k & -> & Hk & H & Hfirst). exists (S k).
        split_and!; [lia|lia|done|].
        intros [|j] Hj; [done|]. apply Hfirst. lia.
      * intros (k & -> & Hk & H & Hfirst). destruct k as [|k]; [done|].
        exists k. split_and!; [lia|lia|done|].
        intros j Hj. apply (Hfirst (S j)). lia.
Qed.

Lemma find_at_None sub s pos : find_at sub s pos = None ↔ ¬ occurs sub s.
Proof.
  rewrite <-occursb_false. revert pos.
  induction s as [|c s IH]; intros pos; simpl.
  - by destruct (startswith sub []).
  - destruct (startswith sub (c :: s)); [done | apply IH].
Qed.

Lemma str_find_Some sub s start n :
  str_find sub s start = Some n ↔
  start ≤ n ≤ length s ∧ occurs_at sub s n
  ∧ ∀ j, start ≤ j < n → ¬ occurs_at sub s j.
Proof.
  unfold str_find. destruct (Nat.ltb_spec (length s) start) as [Hlt|Hle].
  - split; [done | lia].
  - rewrite find_at_Some. unfold occurs_at. split.
    + intros (k & -> & Hk & H & Hfirst). rewrite length_drop in Hk.
      rewrite drop_drop in H. split_and!; [lia|lia|done|].
      intros j Hj Hocc. apply (Hfirst (j - start)); [lia|].
      rewrite drop_drop. by replace (start + (j - start)) with j by lia.
    + intros ([Hlo Hhi] & Hocc & Hfirst). exists (n - start).
      rewrite length_drop, drop_drop.
      replace (start + (n - start)) with n by lia.
      split_and!; [lia|lia|done|].
      intros j Hj. rewrite drop_drop. apply Hfirst. lia.
Qed.

Lemma str_find_None sub s start :
  start ≤ length s →
  str_find sub s start = None ↔ ¬ occurs sub (drop start s).
Proof.
  intros Hle. unfold str_find.
  destruct (Nat.ltb_spec (length s) start); [lia|]. apply find_at_None.
Qed.

(** A search that starts past a prefix only sees what follows it. *)
Lemma str_find_app_r sub x y k :
  str_find sub (x ++ y) (length x + k)
  = (λ n, length x + n) <$> str_find sub y k.
Proof.
  destruct (str_find sub y k) as [n|] eqn:E; simpl.
  - apply str_find_Some in E as ([Hlo Hhi] & H & Hfirst).
    apply str_find_Some. rewrite length_app.
    split_and!; [lia|lia|by apply occurs_at_app_r|].
    intros j Hj. replace j with (length x + (j - length x)) by lia.
    rewrite occurs_at_app_r. apply Hfirst. lia.
  - unfold str_find in *. rewrite length_app, drop_app_add.
    destruct (Nat.ltb_spec (length y) k).
    + by destruct (Nat.ltb_spec (length x + length y) (length x + k));
        [|lia].
    + destruct (Nat.ltb_spec (length x + length y) (length x + k));
        [done|].
      apply find_at_None. by apply find_at_None in E.
Qed.

(** What a search finds inside a text it also finds when more follows. *)
Lemma str_find_app_l sub x y k n :
  sub ≠ [] →
  str_find sub x k = Some n → str_find sub (x ++ y) k = Some n.
Proof.
  intros Hsub ([Hlo Hhi] & H & Hfirst)%str_find_Some. apply str_find_Some.
  pose proof (occurs_at_length _ _ _ H Hsub).
  rewrite length_app. split_and!; [lia|lia|by apply occurs_at_app_l|].
  intros j Hj Hocc. apply (Hfirst j Hj).
  apply occurs_at_inside with y; [done | lia].
Qed.

Lemma slice_app_r x y i j :
  slice (x ++ y) (length x + i) (length x + j) = slice y i j.
Proof.
  unfold slice. rewrite drop_app_add. f_equal. lia.
Qed.

Lemma slice_app_l x y i j : j ≤ length x → slice (x ++ y) i j = slice x i j.
Proof.
  intros Hj. unfold slice. destruct (decide (i ≤ j)).
  - rewrite drop_app_le by lia. rewrite take_app_le; [done|].
    rewrite length_drop. lia.
  - by replace (j - i) with 0 by lia.
Qed.

Lemma slice_middle x p y :
  slice (x ++ p ++ y) (length x) (length x + length p) = p.
Proof.
  unfold slice. rewrite drop_app_length.
  replace (length x + length p - length x) with (length p) by lia.
  by rewrite take_app_length.
Qed.

(** ** Literals that cannot overlap themselves *)

Lemma border_freeb_spec p : border_freeb p = true → border_free p.
Proof.
  unfold border_freeb, border_free. rewrite forallb_forall.
  intros Hall d Hd Hp. specialize (Hall d).
  rewrite in_seq, negb_true_iff, startswith_false in Hall.
  apply Hall; [lia | done].
Qed.

(** An occurrence that starts before another one ends before it starts. *)
Lemma border_free_overlap p x y j :
  border_free p → j < length x → occurs_at p (x ++ p ++ y) j →
  j + length p ≤ length x.
Proof.
  intros Hbf Hj [k Hk]. destruct (decide (j + length p ≤ length x)); [done|].
  destruct (Hbf (length x - j)); [lia|].
  rewrite drop_app_le in Hk by lia.
  assert (drop (length x - j) (drop j x ++ p ++ y) = p ++ y) as E.
  { apply drop_app_length'. rewrite length_drop. lia. }
  rewrite Hk, drop_app_le in E by lia.
  apply prefix_app_le with y; [by exists k | rewrite length_drop; lia].
Qed.

Lemma border_free_inside p x y j :
  border_free p → j < length x → occurs_at p (x ++ p ++ y) j →
  occurs_at p x j.
Proof.
  intros Hbf Hj H. apply occurs_at_inside with (p ++ y); [done|].
  by eapply border_free_overlap.
Qed.

(** The first occurrence after a text that holds none. *)
Lemma str_find_first sub x y :
  border_free sub → ¬ occurs sub x →
  str_find sub (x ++ sub ++ y) 0 = Some (length x).
Proof.
  intros Hbf Hx. apply str_find_Some. rewrite !length_app.
  split_and!; [lia|lia|apply occurs_at_app|].
  intros j Hj Hocc. apply Hx, (occurs_at_occurs _ _ j).
  apply border_free_inside with y; [done|lia|done].
Qed.
End find.

(** ** The scan of [re.sub] *)

Lemma scan_skip (p x y : text) pos :
  scan p (length x) pos (x ++ y) = scan p 0 (pos + length x) y.
Proof.
  revert pos. induction x as [|c x IH]; intros pos; simpl.
  - by rewrite Nat.add_0_r.
  - rewrite IH. f_equal. lia.
Qed.

(** At an occurrence the scan reports a match and resumes after it. *)
Lemma scan_match_here (p y : text) pos :
  p ≠ [] →
  scan p 0 pos (p ++ y)
  = Matched (match_at p pos) :: scan p 0 (pos + length p) y.
Proof.
  intros Hp. destruct p as [|a l]; [done|].
  assert (startswith (a :: l) (a :: l ++ y) = true) as E.
  { apply startswith_prefix. by apply (prefix_app_r _ (a :: l)). }
  cbn [app scan]. rewrite E. f_equal.
  replace (length (a :: l) - 1) with (length l) by (simpl; lia).
  rewrite scan_skip. f_equal. simpl. lia.
Qed.

Section scan.
Variable lits : list ascii.
Implicit Types s x y : text.

Lemma scan_cons_0 pos c s :
  scan lits 0 pos (c :: s)
  = if startswith lits (c :: s)
    then Matched (match_at lits pos) :: scan lits (length lits - 1) (S pos) s
    else Unmatched c :: scan lits 0 (S pos) s.
Proof. done. Qed.

Lemma scan_cons_S k pos c s :
  scan lits (S k) pos (c :: s) = scan lits k (S pos) s.
Proof. done. Qed.

Lemma substitute_app repl ps qs :
  substitute repl (ps ++ qs) = substitute repl ps ++ substitute repl qs.
Proof. unfold substitute. by rewrite map_app, concat_app. Qed.

Lemma substitute_Unmatched repl s : substitute repl (map Unmatched s) = s.
Proof.
  unfold substitute. induction s as [|c s IH]; simpl; [done|].
  by rewrite IH.
Qed.

(** A text without occurrences is scanned character by character. *)
Lemma scan_no_occurrence pos s :
  ¬ occurs lits s → scan lits 0 pos s = map Unmatched s.
Proof.
  revert pos. induction s as [|c s IH]; intros pos Hs; [done|].
  rewrite scan_cons_0. rewrite occurs_cons in Hs.
  destruct (startswith lits (c :: s)) eqn:E.
  - apply startswith_prefix in E. tauto.
  - simpl. rewrite IH; [done | tauto].
Qed.



Hypothesis lits_nonempty : lits ≠ [].



Hypothesis lits_border_free : border_free lits.

(** The scan of a text around an occurrence is the scan of what precedes
    it, the match, and the scan of what follows it. *)
Lemma scan_app_match_skip x y skip pos :
  skip ≤ length x →
  scan lits skip pos (x ++ lits ++ y)
  = scan lits skip pos x
      ++ Matched (match_at lits (pos + length x))
      :: scan lits 0 (pos + length x + length lits) y.
Proof.
  revert skip pos. induction x as [|c x IH]; intros skip pos Hskip.
  - replace skip with 0 by (simpl in Hskip; lia). simpl.
    rewrite Nat.add_0_r. by apply scan_match_here.
  - simpl app. destruct skip as [|k].
    + rewrite !scan_cons_0.
      destruct (startswith lits (c :: x ++ lits ++ y)) eqn:E.
      * apply startswith_prefix in E.
        assert (length lits ≤ length (c :: x)) as Hlen.
        { apply (border_free_overlap lits (c :: x) y 0);
            [done | simpl; lia | done]. }
        assert (startswith lits (c :: x) = true) as ->.
        { apply startswith_prefix.
          by apply (prefix_app_le _ _ (lits ++ y)). }
        simpl. f_equal. rewrite IH by (simpl in Hlen; lia).
        do 3 f_equal; [f_equal|]; lia.
      * assert (startswith lits (c :: x) = false) as ->.
        { apply startswith_false. apply startswith_false in E.
          intros H. apply E. by apply (prefix_app_r _ (c :: x)). }
        simpl. f_equal. rewrite IH by lia.
        do 3 f_equal; [f_equal|]; lia.
    + rewrite !scan_cons_S. rewrite IH by (simpl in Hskip; lia).
      simpl length. do 3 f_equal; [f_equal|]; lia.
Qed.

Lemma scan_app_match x y pos :
  scan lits 0 pos (x ++ lits ++ y)
  = scan lits 0 pos x
      ++ Matched (match_at lits (pos + length x))
      :: scan lits 0 (pos + length x + length lits) y.
Proof. apply scan_app_match_skip. lia. Qed.

End scan.

(** ** The constants *)

Lemma notin_spec (a : ascii) (l : text) :
  existsb (Ascii.eqb a) l = false → a ∉ l.
Proof.
  intros H Hin. apply not_true_iff_false in H. apply H.
  apply existsb_exists. exists a. split; [|apply Ascii.eqb_refl].
  by apply list_elem_of_In.
Qed.


Lemma pattern_length : length pattern = 69.
Proof. reflexivity. Qed.

Lemma pattern_nonempty : pattern ≠ [].
Proof. done. Qed.

Lemma pattern_border_free : border_free pattern.
Proof. apply border_freeb_spec. reflexivity. Qed.

Lemma resp_border_free : border_free resp.
Proof. apply border_freeb_spec. reflexivity. Qed.

Lemma semi_border_free : border_free semi.
Proof. apply border_freeb_spec. reflexivity. Qed.

Lemma resp_nonempty : resp ≠ [].
Proof. discriminate. Qed.

Lemma semi_nonempty : semi ≠ [].
Proof. discriminate. Qed.

Lemma pattern_first : pattern = "s" :: drop 1 pattern.
Proof. reflexivity. Qed.

Lemma pattern_last : pattern = take 68 pattern ++ ["T"].
Proof. reflexivity. Qed.

Lemma block_else (stmt : text) :
  block stmt
  = take 228 block_head ++ (else_open ++ stmt ++ else_close).
Proof.
  unfold block. rewrite <-(take_drop 228 block_head) at 1.
  replace (drop 228 block_head) with else_open by reflexivity.
  by rewrite <-(assoc_L (++)).
Qed.

(** ** The transformation, piece by piece *)

Lemma patch_rewrite_part content :
  patch content = Some (rewrite_part content 0 content).
Proof. done. Qed.

Lemma rewrite_part_no_anchor content pos s :
  ¬ occurs pattern s → rewrite_part content pos s = s.
Proof.
  intros Hs. unfold rewrite_part.
  by rewrite scan_no_occurrence, substitute_Unmatched.
Qed.

Lemma rewrite_part_anchor content pos x y :
  rewrite_part content pos (x ++ pattern ++ y)
  = rewrite_part content pos x
      ++ replace_user_id content (match_at pattern (pos + length x))
      ++ rewrite_part content (pos + length x + length pattern) y.
Proof.
  unfold rewrite_part.
  rewrite scan_app_match
    by auto using pattern_nonempty, pattern_border_free.
  rewrite substitute_app. f_equal.
Qed.


(** The callback in terms of the following statement. *)
Lemma replace_user_id_following content m :
  replace_user_id content m
  = match following_statement content (m_end m) with
    | Some stmt => block stmt
    | None => group0 m
    end.
Proof.
  unfold replace_user_id, following_statement.
  destruct (str_find resp content (m_end m)) as [r|]; simpl; [|done].
  by destruct (str_find semi content r).
Qed.

Lemma following_statement_app_r x y e :
  following_statement (x ++ y) (length x + e) = following_statement y e.
Proof.
  unfold following_statement. rewrite str_find_app_r.
  destruct (str_find resp y e) as [r|]; simpl; [|done].
  rewrite str_find_app_r.
  destruct (str_find semi y r) as [n|]; simpl; [|done].
  by rewrite <-Nat.add_assoc, slice_app_r.
Qed.

Lemma following_statement_app_l y z e stmt :
  following_statement y e = Some stmt →
  following_statement (y ++ z) e = Some stmt.
Proof.
  unfold following_statement.
  destruct (str_find resp y e) as [r|] eqn:Er; simpl; [|done].
  destruct (str_find semi y r) as [n|] eqn:En; simpl; [|done].
  intros [= <-].
  rewrite (str_find_app_l _ _ _ _ _ resp_nonempty Er). simpl.
  rewrite (str_find_app_l _ _ _ _ _ semi_nonempty En). simpl.
  f_equal. apply slice_app_l.
  apply str_find_Some in En as (_ & Hocc & _).
  apply occurs_at_length in Hocc; [simpl in Hocc; lia | discriminate].
Qed.

(** A captured statement ends with its only [;]. *)
Lemma following_statement_shape content e stmt :
  following_statement content e = Some stmt →
  ∃ body, stmt = body ++ semi ∧ ";" ∉ body.
Proof.
  unfold following_statement.
  destruct (str_find resp content e) as [r|] eqn:Er; simpl; [|done].
  destruct (str_find semi content r) as [n|] eqn:En; simpl; [|done].
  intros [= <-]. apply str_find_Some in En as ([Hrn Hn] & Hocc & Hfirst).
  exists (slice content r n). unfold slice. split.
  - replace (n + 1 - r) with (S (n - r)) by lia.
    apply take_S_r. rewrite lookup_drop.
    replace (r + (n - r)) with n by lia.
    destruct Hocc as [k Hk]. rewrite <-(take_drop n content), Hk.
    rewrite lookup_app_r; rewrite length_take_le by lia; [|lia].
    by rewrite Nat.sub_diag.
  - intros (i & Hi)%list_elem_of_lookup.
    pose proof (lookup_lt_Some _ _ _ Hi) as Hlt.
    rewrite length_take, length_drop in Hlt.
    rewrite lookup_take_lt, lookup_drop in Hi by lia.
    apply (Hfirst (r + i)); [lia|].
    apply list_elem_of_split_length in Hi as (l1 & l2 & E & Hl).
    unfold occurs_at. rewrite E, Hl, drop_app_length. by exists l2.
Qed.

(** ** Occurrences, computed *)

Lemma occurrences_spec (p s : text) pos i :
  i ∈ occurrences p s pos ↔
  ∃ j, i = pos + j ∧ j ≤ length s ∧ occurs_at p s j.
Proof.
  revert pos. induction s as [|c s IH]; intros pos; simpl.
  - rewrite app_nil_r. destruct (startswith p []) eqn:E.
    + apply startswith_prefix in E. rewrite list_elem_of_singleton. split.
      * intros ->. exists 0. split_and!; [lia|lia|done].
      * intros (j & -> & Hj & _). lia.
    + apply startswith_false in E. split; [by intros ?%elem_of_nil|].
      intros (j & _ & Hj & H). by replace j with 0 in H by lia.
  - rewrite elem_of_app, IH. split.
    + intros [H|(j & -> & Hj & H)].
      * destruct (startswith p (c :: s)) eqn:E; [|by apply elem_of_nil in H].
        apply list_elem_of_singleton in H as ->.
        apply startswith_prefix in E.
        exists 0. split_and!; [lia|lia|done].
      * exists (S j). split_and!; [lia|lia|done].
    + intros ([|j] & -> & Hj & H).
      * left. unfold occurs_at in H. rewrite drop_0 in H.
        apply startswith_prefix in H. rewrite H.
        apply list_elem_of_singleton. lia.
      * right. exists j. split_and!; [lia|lia|done].
Qed.

Lemma well_formedb_spec content :
  well_formedb content = true → well_formed content.
Proof.
  unfold well_formedb, well_formed. rewrite forallb_forall.
  intros Hall i Hi. specialize (Hall i).
  destruct (following_statement content (i + length pattern)); [done|].
  discriminate Hall. apply list_elem_of_In, occurrences_spec.
  exists i. split_and!; [done| |done].
  pose proof (occurs_at_length _ _ _ Hi pattern_nonempty). lia.
Qed.

(** ** A synthesized block brings no anchor *)

Lemma block_no_anchor (x body y : text) :
  ¬ occurs pattern x → ¬ occurs pattern y → ";" ∉ body →
  ¬ occurs pattern (x ++ block (body ++ semi) ++ y).
Proof.
  intros Hx Hy Hbody. unfold block, block_head, block_tail.
  rewrite <-!(assoc_L (++)). rewrite (assoc_L (++) x guard_lines).
  simpl app at 2.
  intros [H|H]%occurs_app_sep; [| |by apply notin_spec].
  - apply Hx. rewrite pattern_last in H |- *.
    eapply occurs_strip_r; [|done]. by apply notin_spec.
  - assert (spaces 24 ++ body ++ semi ++ [nl] ++ spaces 20 ++ str "}" ++ y
            = (spaces 24 ++ body ++ semi)
                ++ nl :: ((spaces 20 ++ str "}") ++ y)) as E.
    { by rewrite <-!(assoc_L (++)). }
    rewrite E in H. clear E.
    apply occurs_app_sep in H as [H|H]; [| |by apply notin_spec].
    + rewrite pattern_first in H.
      apply occurs_strip_l in H; [|by apply notin_spec].
      rewrite <-pattern_first, pattern_last in H.
      apply occurs_strip_r in H; [|by apply notin_spec].
      apply Hbody. eapply occurs_elem_of; [done|].
      rewrite <-pattern_last. apply list_elem_of_In. vm_compute. tauto.
    + apply Hy. rewrite pattern_first in H |- *.
      eapply occurs_strip_l; [|done]. by apply notin_spec.
Qed.

(** ** One occurrence at a time *)

Lemma following_statement_intro content e r n :
  str_find resp content e = Some r →
  str_find semi content r = Some n →
  following_statement content e = Some (slice content r (n + 1)).
Proof.
  intros Hr Hn. unfold following_statement. rewrite Hr. simpl.
  by rewrite Hn.
Qed.

Lemma patch_occurrence (pre post : text) :
  patch (pre ++ pattern ++ post)
  = Some (rewrite_part (pre ++ pattern ++ post) 0 pre
          ++ replace_user_id (pre ++ pattern ++ post)
               (match_at pattern (length pre))
          ++ rewrite_part (pre ++ pattern ++ post)
               (length pre + length pattern) post).
Proof. by rewrite patch_rewrite_part, rewrite_part_anchor. Qed.

Lemma replace_user_id_transformed content i stmt :
  following_statement content (i + length pattern) = Some stmt →
  replace_user_id content (match_at pattern i) = block stmt.
Proof.
  intros H. rewrite replace_user_id_following. unfold match_at.
  cbn [m_end group0]. by rewrite H.
Qed.

Lemma replace_user_id_skipped content i :
  following_statement content (i + length pattern) = None →
  replace_user_id content (match_at pattern i) = pattern.
Proof.
  intros H. rewrite replace_user_id_following. unfold match_at.
  cbn [m_end group0]. by rewrite H.
Qed.

Lemma following_statement_occurs content e stmt :
  following_statement content e = Some stmt → occurs stmt content.
Proof.
  unfold following_statement.
  destruct (str_find resp content e) as [r|]; simpl; [|done].
  destruct (str_find semi content r) as [n|]; simpl; [|done].
  intros [= <-]. unfold slice.
  exists (take r content), (drop (n + 1 - r) (drop r content)).
  by rewrite take_drop, take_drop.
Qed.

Lemma in_else_branch_block (stmt x y : text) :
  in_else_branch stmt (x ++ block stmt ++ y).
Proof.
  unfold in_else_branch. rewrite block_else.
  exists (x ++ take 228 block_head), y. by rewrite <-!(assoc_L (++)).
Qed.

(** The scan of a part of a well-formed text leaves no anchor. *)
Lemma rewrite_part_removes_anchor content :
  well_formed content →
  ∀ n s x y, length s ≤ n → content = x ++ s ++ y →
             ¬ occurs pattern (rewrite_part content (length x) s).
Proof.
  intros Hwf. induction n as [|n IH]; intros s x y Hlen Hc.
  - destruct s; [|simpl in Hlen; lia].
    rewrite rewrite_part_no_anchor; by apply occursb_false.
  - destruct (occursb pattern s) eqn:E.
    + apply occursb_occurs in E as (a & b & ->).
      rewrite !length_app, pattern_length in Hlen.
      rewrite rewrite_part_anchor.
      destruct (Hwf (length x + length a)) as [stmt Hstmt].
      { replace content with ((x ++ a) ++ pattern ++ (b ++ y))
          by by rewrite Hc, <-!(assoc_L (++)).
        rewrite <-length_app. apply occurs_at_app. }
      rewrite (replace_user_id_transformed _ _ _ Hstmt).
      destruct (following_statement_shape _ _ _ Hstmt) as (body & -> & ?).
      apply block_no_anchor; [| |done].
      * apply (IH a x (pattern ++ b ++ y)); [lia|].
        by rewrite Hc, <-!(assoc_L (++)).
      * rewrite <-!length_app.
        replace ((x ++ a) ++ pattern) with (x ++ a ++ pattern)
          by by rewrite (assoc_L (++)).
        apply (IH b _ y); [lia|]. by rewrite Hc, <-!(assoc_L (++)).
    + apply occursb_false in E. by rewrite rewrite_part_no_anchor.
Qed.

(** A search that fails from an offset fails from every later one. *)
Lemma str_find_None_mono (sub s : text) (a b : nat) :
  a ≤ b → str_find sub s a = None → str_find sub s b = None.
Proof.
  intros Hab Ha. destruct (str_find sub s b) as [n|] eqn:Hb; [|done].
  apply str_find_Some in Hb as ([Hbn Hn] & Hocc & _).
  apply str_find_None in Ha; [|lia]. destruct Ha.
  apply (occurs_at_occurs _ _ (n - a)). unfold occurs_at in *.
  rewrite drop_drop. by replace (a + (n - a)) with n by lia.
Qed.

Lemma following_statement_None_mono content (e e' : nat) :
  e ≤ e' →
  following_statement content e = None →
  following_statement content e' = None.
Proof.
  intros Hee. unfold following_statement.
  destruct (str_find resp content e) as [r|] eqn:Hr; simpl.
  - destruct (str_find semi content r) as [n|] eqn:Hn; simpl; [done|].
    intros _. destruct (str_find resp content e') as [r'|] eqn:Hr';
      simpl; [|done].
    rewrite (str_find_None_mono semi content r r'); [done| |done].
    apply str_find_Some in Hr as (_ & _ & Hfirst).
    apply str_find_Some in Hr' as ([? _] & Hocc & _).
    destruct (decide (r ≤ r')); [done|]. destruct (Hfirst r'); [lia|done].
  - intros _. by rewrite (str_find_None_mono resp content e e').
Qed.

(** After an anchor without a following statement the scan changes
    nothing. *)
Lemma rewrite_part_all_skipped content (e : nat) :
  following_statement content e = None →
  ∀ n s x y, length s ≤ n → e ≤ length x → content = x ++ s ++ y →
             rewrite_part content (length x) s = s.
Proof.
  intros He. induction n as [|n IH]; intros s x y Hlen Hx Hc.
  - destruct s; [|simpl in Hlen; lia].
    rewrite rewrite_part_no_anchor; [done | by apply occursb_false].
  - destruct (occursb pattern s) eqn:E.
    + apply occursb_occurs in E as (a & b & ->).
      rewrite !length_app, pattern_length in Hlen.
      rewrite rewrite_part_anchor, replace_user_id_skipped.
      * rewrite (IH a x (pattern ++ b ++ y)); [|lia|done|].
        2:{ by rewrite Hc, <-!(assoc_L (++)). }
        rewrite <-!length_app.
        replace ((x ++ a) ++ pattern) with (x ++ a ++ pattern)
          by by rewrite (assoc_L (++)).
        rewrite (IH b _ y); [done|lia| |].
        -- rewrite length_app. lia.
        -- by rewrite Hc, <-!(assoc_L (++)).
      * apply (following_statement_None_mono _ e); [lia|done].
    + apply occursb_false in E. by rewrite rewrite_part_no_anchor.
Qed.

(** A captured statement begins with the lexeme searched for. *)
Lemma following_statement_start content (e : nat) (stmt : text) :
  following_statement content e = Some stmt → resp `prefix_of` stmt.
Proof.
  unfold following_statement.
  destruct (str_find resp content e) as [r|] eqn:Hr; simpl; [|done].
  destruct (str_find semi content r) as [n|] eqn:Hn; simpl; [|done].
  intros [= <-].
  apply str_find_Some in Hr as (_ & [k Hk] & _).
  apply str_find_Some in Hn as ([Hrn _] & [k' Hk'] & _).
  destruct (decide (r + length resp ≤ n)) as [Hle|Hgt].
  - unfold slice. rewrite Hk, take_app_ge by lia. by apply prefix_app_r.
  - assert (drop r content !! (n - r) = Some ";") as Hd.
    { rewrite lookup_drop. replace (r + (n - r)) with n by lia.
      rewrite <-(Nat.add_0_r n), <-lookup_drop. by rewrite Hk'. }
    rewrite Hk, lookup_app_l in Hd by lia.
    change (length resp) with 10 in Hgt.
    assert (n - r < 10) as Hlt by lia. revert Hd. generalize (n - r) Hlt.
    intros j Hj. by do 10 (destruct j as [|j]; [done|]); lia.
Qed.

(** * The claims *)

(** C2.  A text without any occurrence of the anchor pattern is returned
    as it is: the pattern not being found is a no-op, not an error. *)
Theorem patch_no_anchor_noop (content : text) :
  ¬ occurs pattern content → patch content = Some content.
Proof.
  intros H. by rewrite patch_rewrite_part, rewrite_part_no_anchor.
Qed.

Lemma patch_no_anchor_noop_witness :
  let content := str "int main() { return 0; }" in
  ¬ occurs pattern content ∧ patch content = Some content.
Proof.
  split.
  - apply occursb_false. reflexivity.
  - apply patch_no_anchor_noop. apply occursb_false. reflexivity.
Defined.

(** C7.  When every anchor occurrence has a following statement, the
    output holds no occurrence of the anchor pattern, and patching the
    output again changes nothing. *)
Theorem patch_removes_anchor (content : text) :
  well_formed content →
  ∃ out, patch content = Some out
         ∧ ¬ occurs pattern out
         ∧ patch out = Some out.
Proof.
  intros Hwf. exists (rewrite_part content 0 content).
  assert (¬ occurs pattern (rewrite_part content 0 content)) as Hout.
  { apply (rewrite_part_removes_anchor content Hwf (length content)
             content [] []); [done|].
    by rewrite app_nil_r. }
  split_and!; [done | done |].
  by rewrite patch_rewrite_part, rewrite_part_no_anchor.
Qed.

Lemma patch_removes_anchor_witness :
  let content :=
    str "void f() { " ++ pattern ++ [nl] ++ response_statement (str "ok")
      ++ str " }" in
  well_formed content
  ∧ ∃ out, patch content = Some out
           ∧ ¬ occurs pattern out
           ∧ patch out = Some out.
Proof.
  split.
  - apply well_formedb_spec. reflexivity.
  - apply patch_removes_anchor. apply well_formedb_spec. reflexivity.
Defined.

(** C5.  For an anchor occurrence that is transformed, the captured
    statement (the text from the next [response =] after the end of the
    match through the next [;], inclusive) stands unmodified between the
    two constant parts of the synthesized block, that is, inside its
    else-branch, and the block stands in the output. *)
Theorem following_statement_verbatim
    (pre post : text) (next_response response_end : nat) :
  let content := pre ++ pattern ++ post in
  let stmt := slice content next_response (response_end + 1) in
  str_find resp content (length pre + length pattern) = Some next_response →
  str_find semi content next_response = Some response_end →
  replace_user_id content (match_at pattern (length pre))
  = block_head ++ stmt ++ block_tail
  ∧ in_else_branch stmt (block_head ++ stmt ++ block_tail)
  ∧ ∃ out, patch content = Some out
           ∧ occurs (block_head ++ stmt ++ block_tail) out
           ∧ in_else_branch stmt out.
Proof.
  intros content stmt Hr He.
  assert (following_statement content (length pre + length pattern)
          = Some stmt) as Hstmt.
  { unfold following_statement. rewrite Hr. simpl. by rewrite He. }
  split_and!.
  - by rewrite (replace_user_id_transformed _ _ _ Hstmt).
  - pose proof (in_else_branch_block stmt [] []) as H.
    by rewrite app_nil_r in H.
  - eexists. split; [apply patch_occurrence|]. fold content.
    rewrite (replace_user_id_transformed _ _ _ Hstmt). split.
    + by eexists _, _.
    + apply in_else_branch_block.
Qed.

Lemma following_statement_verbatim_witness :
  let pre := str "{ " in
  let post := str " x = 1; " ++ response_statement (str "ok") ++ str " }" in
  let content := pre ++ pattern ++ post in
  let stmt := response_statement (str "ok") in
  str_find resp content (length pre + length pattern) = Some 79
  ∧ str_find semi content 79 = Some 94
  ∧ slice content 79 (94 + 1) = stmt
  ∧ replace_user_id content (match_at pattern (length pre))
    = block_head ++ stmt ++ block_tail
  ∧ in_else_branch stmt (block_head ++ stmt ++ block_tail).
Proof.
  split; [reflexivity|]. split; [reflexivity|]. split; [reflexivity|].
  pose proof (following_statement_verbatim (str "{ ")
    (str " x = 1; " ++ response_statement (str "ok") ++ str " }") 79 94)
    as H.
  destruct H as (H1 & H2 & _); [reflexivity | reflexivity |].
  split; [exact H1 | exact H2].
Defined.



(** C4.  With two anchor occurrences, each followed before the next
    anchor by its own statement, both are replaced.  The statement
    captured for each occurrence is the one that begins at the first
    [response =] after the end of that occurrence; the block that replaces
    the occurrence is the constant head of the f-string, that statement
    and the constant tail, so the statement stands in the else-branch of
    its own block.  The text around and between the two occurrences is
    neither altered nor duplicated. *)
Theorem two_occurrences_independent (a b c s1 s2 : text) :
  let content := a ++ pattern ++ b ++ pattern ++ c in
  let end1 := length a + length pattern in
  let end2 := end1 + length b + length pattern in
  ¬ occurs pattern a → ¬ occurs pattern b → ¬ occurs pattern c →
  following_statement b 0 = Some s1 →
  following_statement c 0 = Some s2 →
  occurs s1 b ∧ occurs s2 c
  ∧ following_statement content end1 = Some s1
  ∧ following_statement content end2 = Some s2
  ∧ patch content
    = Some (a ++ (block_head ++ s1 ++ block_tail) ++ b
            ++ (block_head ++ s2 ++ block_tail) ++ c)
  ∧ in_else_branch s1 (block_head ++ s1 ++ block_tail)
  ∧ in_else_branch s2 (block_head ++ s2 ++ block_tail)
  ∧ resp `prefix_of` s1 ∧ resp `prefix_of` s2.
Proof.
  intros content end1 end2 Ha Hb Hc H1 H2.
  assert (following_statement content end1 = Some s1) as Hs1.
  { replace content with ((a ++ pattern) ++ b ++ pattern ++ c)
      by (unfold content; by rewrite <-!(assoc_L (++))).
    replace end1 with (length (a ++ pattern) + 0)
      by (unfold end1; rewrite !length_app; lia).
    rewrite following_statement_app_r.
    by apply following_statement_app_l. }
  assert (following_statement content end2 = Some s2) as Hs2.
  { replace content with ((a ++ pattern ++ b ++ pattern) ++ c)
      by (unfold content; by rewrite <-!(assoc_L (++))).
    replace end2 with (length (a ++ pattern ++ b ++ pattern) + 0)
      by (unfold end2, end1; rewrite !length_app; lia).
    by rewrite following_statement_app_r. }
  split; [by eapply following_statement_occurs|].
  split; [by eapply following_statement_occurs|].
  split; [done|]. split; [done|]. split; [|split; [|split; [|split]]].
  - unfold content at 1.
    rewrite patch_rewrite_part, !rewrite_part_anchor.
    rewrite !rewrite_part_no_anchor by done. fold content.
    rewrite (replace_user_id_transformed content _ s1) by done.
    rewrite (replace_user_id_transformed content _ s2); [done|].
    rewrite <-Hs2. f_equal.
  - pose proof (in_else_branch_block s1 [] []) as H.
    by rewrite app_nil_r in H.
  - pose proof (in_else_branch_block s2 [] []) as H.
    by rewrite app_nil_r in H.
  - by eapply following_statement_start.
  - by eapply following_statement_start.
Qed.

Lemma two_occurrences_independent_witness :
  let a := str "f() { " in
  let b := str " " ++ response_statement (str "one") ++ str " } g() { " in
  let c := str " " ++ response_statement (str "two") ++ str " }" in
  let s1 := response_statement (str "one") in
  let s2 := response_statement (str "two") in
  (¬ occurs pattern a ∧ ¬ occurs pattern b ∧ ¬ occurs pattern c
   ∧ following_statement b 0 = Some s1 ∧ following_statement c 0 = Some s2)
  ∧ patch (a ++ pattern ++ b ++ pattern ++ c)
    = Some (a ++ (block_head ++ s1 ++ block_tail) ++ b
            ++ (block_head ++ s2 ++ block_tail) ++ c).
Proof.
  split.
  - split_and!; [apply occursb_false; reflexivity..| |]; reflexivity.
  - refine (proj1 (proj2 (proj2 (proj2 (proj2
      (two_occurrences_independent (str "f() { ")
         (str " " ++ response_statement (str "one") ++ str " } g() { ")
         (str " " ++ response_statement (str "two") ++ str " }")
         (response_statement (str "one")) (response_statement (str "two"))
         _ _ _ _ _)))))).
    + apply occursb_false. reflexivity.
    + apply occursb_false. reflexivity.
    + apply occursb_false. reflexivity.
    + reflexivity.
    + reflexivity.
Defined.



(** The statement [response = "<literal>";] is the one captured when it is
    the first [response =] and its literal holds no [;]. *)
Lemma response_statement_following (filler literal post : text) :
  ¬ occurs resp filler → ";" ∉ literal →
  following_statement (filler ++ response_statement literal ++ post) 0
  = Some (response_statement literal).
Proof.
  intros Hfiller Hlit.
  set (body := resp ++ str " " ++ [dq] ++ literal ++ [dq]).
  assert (response_statement literal = body ++ semi) as Hstmt.
  { unfold response_statement, body. by rewrite <-!(assoc_L (++)). }
  assert (¬ occurs semi body) as Hbody.
  { intros H. apply (occurs_elem_of _ _ ";") in H; [|left].
    unfold body in H. rewrite !elem_of_app in H.
    destruct H as [H|[H|[H|[H|H]]]]; [| | |done|];
      by apply list_elem_of_In in H; vm_compute in H; intuition. }
  rewrite Hstmt.
  rewrite (following_statement_intro _ 0 (length filler)
             (length filler + length body)).
  - f_equal.
    replace (length filler + length body + 1)
      with (length filler + length (body ++ semi))
      by (rewrite length_app; simpl; lia).
    apply slice_middle.
  - replace ((body ++ semi) ++ post)
      with (resp ++ (str " " ++ [dq] ++ literal ++ [dq]) ++ semi ++ post)
      by (unfold body; by rewrite <-!(assoc_L (++))).
    by apply str_find_first; [apply resp_border_free|].
  - replace (length filler) with (length filler + 0) at 1 by lia.
    rewrite str_find_app_r, <-(assoc_L (++) body semi post).
    by rewrite (str_find_first semi body post semi_border_free Hbody).
Qed.

(** C1 (amended).  For a text with exactly one occurrence of the anchor
    pattern, followed by a statement [response = "<literal>";] that is the
    first [response =] after the anchor and whose literal holds no [;],
    the output is the text with the anchor replaced by the block built on
    that statement: it holds no occurrence of the stub assignment, it
    holds the call of the authentication collaborator and the guard that
    assigns the unauthorized payload on an empty identity, and the
    statement stands verbatim in the else-branch. *)
Theorem single_anchor_round_trip (pre filler literal post : text) :
  let stmt := response_statement literal in
  let content := pre ++ pattern ++ filler ++ stmt ++ post in
  ¬ occurs pattern pre →
  ¬ occurs pattern (filler ++ stmt ++ post) →
  ¬ occurs resp filler →
  ";" ∉ literal →
  ∃ out, patch content = Some out
         ∧ out = pre ++ block stmt ++ filler ++ stmt ++ post
         ∧ ¬ occurs pattern out
         ∧ occurs auth_call out
         ∧ occurs guard out
         ∧ in_else_branch stmt out.
Proof.
  intros stmt content Hpre Hpost Hfiller Hlit.
  exists (pre ++ block stmt ++ filler ++ stmt ++ post). split_and!.
  - unfold content. rewrite patch_occurrence. fold content.
    rewrite !rewrite_part_no_anchor by done.
    rewrite (replace_user_id_transformed _ _ stmt); [done|].
    unfold content. rewrite (assoc_L (++) pre pattern), <-length_app.
    replace (length (pre ++ pattern)) with (length (pre ++ pattern) + 0)
      by lia.
    rewrite following_statement_app_r.
    by apply response_statement_following.
  - done.
  - unfold stmt at 1, response_statement.
    replace (resp ++ str " " ++ [dq] ++ literal ++ [dq] ++ semi)
      with ((resp ++ str " " ++ [dq] ++ literal ++ [dq]) ++ semi)
      by by rewrite <-!(assoc_L (++)).
    apply block_no_anchor; [done..|].
    rewrite !elem_of_app.
    intros [H|[H|[H|[H|H]]]]; [| | |done|];
      by apply list_elem_of_In in H; vm_compute in H; intuition.
  - apply occurs_app_r, occurs_app_l. unfold block.
    apply occurs_app_l. apply occursb_occurs. reflexivity.
  - apply occurs_app_r, occurs_app_l. unfold block.
    apply occurs_app_l. apply occursb_occurs. reflexivity.
  - apply in_else_branch_block.
Qed.

Lemma single_anchor_round_trip_witness :
  let pre := str "void handle() { " in
  let filler := [nl] ++ str "log();" ++ [nl] in
  let literal := str "ok" in
  let post := [nl] ++ str "}" in
  let stmt := response_statement literal in
  let content := pre ++ pattern ++ filler ++ stmt ++ post in
  (¬ occurs pattern pre ∧ ¬ occurs pattern (filler ++ stmt ++ post)
   ∧ ¬ occurs resp filler ∧ ";" ∉ literal)
  ∧ ∃ out, patch content = Some out
           ∧ out = pre ++ block stmt ++ filler ++ stmt ++ post
           ∧ ¬ occurs pattern out
           ∧ occurs auth_call out
           ∧ occurs guard out
           ∧ in_else_branch stmt out.
Proof.
  split.
  - split_and!; [apply occursb_false; reflexivity..|].
    apply notin_spec. reflexivity.
  - apply (single_anchor_round_trip (str "void handle() { ")
             ([nl] ++ str "log();" ++ [nl]) (str "ok") ([nl] ++ str "}"));
      [apply occursb_false; reflexivity..|].
    apply notin_spec. reflexivity.
Defined.

(** C1 as stated fails: with a [;] inside the string literal the
    statement captured stops at that [;], and the else-branch does not
    hold the original statement. *)
Lemma single_anchor_round_trip_counterexample :
  let stmt := response_statement (str "a;b") in
  let content := pattern ++ [nl] ++ stmt in
  occurrences pattern content 0 = [0]
  ∧ ∃ out, patch content = Some out
           ∧ out = block (str "response = " ++ [dq] ++ str "a;")
                     ++ [nl] ++ stmt
           ∧ ¬ in_else_branch stmt out.
Proof.
  split; [reflexivity|]. eexists. split; [reflexivity|].
  split; [reflexivity|]. apply occursb_false. reflexivity.
Qed.




(** ** The run of the script *)

(** The run, step by step: read, transform, write, print. *)
Lemma main_callback_run (w : world) :
  main_callback w
  = match file w with
    | None => (w, Raise FileNotFoundError)
    | Some content =>
        if readable w then
          match write_target (rewrite_part content 0 content) w with
          | (w', Ok _) => print acknowledgment w'
          | (w', Raise e) => (w', Raise e)
          end
        else (w, Raise PermissionError)
    end.
Proof.
  unfold main_callback, mbind, IO_bind, read_target.
  destruct (file w) as [content|]; [|done].
  destruct (readable w); [|done].
  fold (patch content). by rewrite patch_rewrite_part.
Qed.

Lemma main_main_callback (w : world) : main w = main_callback w.
Proof. done. Qed.

(** What a run that ends normally, and a run that raises, have done. *)
Lemma main_outcome (w w' : world) (r : result ()) :
  main w = (w', r) →
  match r with
  | Ok _ =>
      ∃ content new,
        file w = Some content ∧ readable w = true ∧ writable w = true
        ∧ patch content = Some new
        ∧ file w' = Some new
        ∧ stdout w' = stdout w ++ [acknowledgment]
  | Raise _ => stdout w' = stdout w
  end.
Proof.
  rewrite main_main_callback, main_callback_run.
  destruct (file w) as [content|] eqn:Hfile; [|by intros [= <- <-]].
  destruct (readable w) eqn:Hread; [|by intros [= <- <-]].
  unfold write_target, print.
  destruct (writable w) eqn:Hwrite; [|by intros [= <- <-]].
  destruct (capacity w) as [n|].
  - destruct (n <? length (rewrite_part content 0 content))%nat.
    + by intros [= <- <-].
    + intros [= <- <-]. by exists content, (rewrite_part content 0 content).
  - intros [= <- <-]. by exists content, (rewrite_part content 0 content).
Qed.

(** C8.  When the file cannot be read, the run ends with the exception
    and leaves the world as it was: nothing is written and nothing is
    printed.  A run that ends normally has read the file, transformed its
    text, written the result and then printed the acknowledgment; a run
    that raises, at whatever step, has printed nothing. *)
Theorem read_failure_propagates (w : world) :
  (file w = None ∨ readable w = false → ∃ e, main w = (w, Raise e))
  ∧ ∀ w' r, main w = (w', r) →
      match r with
      | Ok _ =>
          ∃ content new,
            file w = Some content ∧ readable w = true ∧ writable w = true
            ∧ patch content = Some new
            ∧ file w' = Some new
            ∧ stdout w' = stdout w ++ [acknowledgment]
      | Raise _ => stdout w' = stdout w
      end.
Proof.
  split.
  - rewrite main_main_callback, main_callback_run. intros [H|H].
    + rewrite H. by eexists.
    + rewrite H. destruct (file w); by eexists.
  - apply main_outcome.
Qed.

Lemma read_failure_propagates_witness :
  let missing := mkWorld None true true None [] in
  let locked := mkWorld (Some pattern) false true None [] in
  let ready :=
    mkWorld (Some (pattern ++ response_statement (str "ok"))) true true
      None [] in
  (∃ e, main missing = (missing, Raise e))
  ∧ (∃ e, main locked = (locked, Raise e))
  ∧ ∃ w', main ready = (w', Ok ())
          ∧ stdout w' = [acknowledgment]
          ∧ file w'
            = Some (block (response_statement (str "ok"))
                    ++ response_statement (str "ok")).
Proof.
  split_and!.
  - apply (proj1 (read_failure_propagates
                    (mkWorld None true true None []))).
    left. reflexivity.
  - apply (proj1 (read_failure_propagates
                    (mkWorld (Some pattern) false true None []))).
    right. reflexivity.
  - set (ready := mkWorld
           (Some (pattern ++ response_statement (str "ok"))) true true
           None []).
    assert (main ready = ((main ready).1, Ok ())) as Hrun
      by (vm_compute; reflexivity).
    exists (main ready).1. split; [exact Hrun|].
    destruct (proj2 (read_failure_propagates ready) _ _ Hrun)
      as (content & new & _ & _ & _ & _ & _ & H).
    split; [exact H | vm_compute; reflexivity].
Defined.

(** C9.  The run of the script is the run of the per-match callback
    pipeline alone: the text written is the result of [re.sub] on the text
    read, and the global replacement computed first has no effect on it.
    The global replacement on its own would write another text. *)
Theorem preliminary_replacement_discarded :
  (∀ w, main w = main_callback w)
  ∧ (∀ w w' content,
       file w = Some content → main w = (w', Ok ()) →
       ∃ new, re_sub pattern (replace_user_id content) content = Some new
              ∧ file w' = Some new)
  ∧ ∃ w w' w'',
      main w = (w', Ok ()) ∧ main_simple w = (w'', Ok ())
      ∧ file w' ≠ file w''
      ∧ file w'' = (λ content, str_replace content pattern replacement)
                     <$> file w.
Proof.
  split_and!.
  - done.
  - intros w w' content Hfile Hrun.
    destruct (main_outcome _ _ _ Hrun)
      as (content' & new & Hfile' & _ & _ & Hpatch & Hnew & _).
    exists new. split; [|done].
    rewrite Hfile in Hfile'. by injection Hfile' as ->.
  - set (w := mkWorld (Some pattern) true true None []).
    exists w, (main w).1, (main_simple w).1.
    split_and!; [by vm_compute | by vm_compute | | by vm_compute].
    vm_compute. discriminate.
Qed.

Lemma preliminary_replacement_discarded_witness :
  let content := pattern ++ response_statement (str "ok") in
  let w := mkWorld (Some content) true true None [] in
  ∃ new, re_sub pattern (replace_user_id content) content = Some new
         ∧ file (main w).1 = Some new.
Proof.
  apply (proj1 (proj2 preliminary_replacement_discarded)
           (mkWorld (Some (pattern ++ response_statement (str "ok")))
              true true None [])).
  - reflexivity.
  - vm_compute. reflexivity.
Defined.

(** * Further properties of the code *)

(** ** Lengths *)

Lemma block_length (stmt : text) : length (block stmt) = 283 + length stmt.
Proof.
  unfold block. rewrite !length_app.
  change (length block_head) with 261. change (length block_tail) with 22.
  lia.
Qed.

Lemma replace_user_id_length content (i : nat) :
  length pattern ≤ length (replace_user_id content (match_at pattern i)).
Proof.
  rewrite replace_user_id_following. unfold match_at. cbn [m_end group0].
  destruct (following_statement content (i + length pattern)); [|done].
  rewrite block_length, pattern_length. lia.
Qed.

(** The scan never shortens a text. *)
Lemma rewrite_part_length content :
  ∀ n s pos, length s ≤ n → length s ≤ length (rewrite_part content pos s).
Proof.
  induction n as [|n IH]; intros s pos Hlen.
  - destruct s; [simpl; lia | simpl in Hlen; lia].
  - destruct (occursb pattern s) eqn:E.
    + apply occursb_occurs in E as (a & b & ->).
      rewrite rewrite_part_anchor, !length_app.
      rewrite !length_app, pattern_length in Hlen.
      pose proof (IH a pos ltac:(lia)).
      pose proof (IH b (pos + length a + length pattern) ltac:(lia)).
      pose proof (replace_user_id_length content (pos + length a)). lia.
    + apply occursb_false in E. by rewrite rewrite_part_no_anchor.
Qed.

(** When no anchor has a following statement the scan changes nothing. *)
Lemma rewrite_part_none_transformed content :
  (∀ i, occurs_at pattern content i →
        following_statement content (i + length pattern) = None) →
  ∀ n s x y, length s ≤ n → content = x ++ s ++ y →
             rewrite_part content (length x) s = s.
Proof.
  intros Hnone. induction n as [|n IH]; intros s x y Hlen Hc.
  - destruct s; [|simpl in Hlen; lia].
    rewrite rewrite_part_no_anchor; [done | by apply occursb_false].
  - destruct (occursb pattern s) eqn:E.
    + apply occursb_occurs in E as (a & b & ->).
      rewrite !length_app, pattern_length in Hlen.
      rewrite rewrite_part_anchor, replace_user_id_skipped.
      * rewrite (IH a x (pattern ++ b ++ y)); [|lia|].
        2:{ by rewrite Hc, <-!(assoc_L (++)). }
        rewrite <-!length_app.
        replace ((x ++ a) ++ pattern) with (x ++ a ++ pattern)
          by by rewrite (assoc_L (++)).
        rewrite (IH b _ y); [done|lia|].
        by rewrite Hc, <-!(assoc_L (++)).
      * apply Hnone.
        replace content with ((x ++ a) ++ pattern ++ (b ++ y))
          by by rewrite Hc, <-!(assoc_L (++)).
        rewrite <-length_app. apply occurs_at_app.
    + apply occursb_false in E. by rewrite rewrite_part_no_anchor.
Qed.

(** X5.  The transformation never shortens the text, and it returns the
    text unchanged exactly when no anchor occurrence has a following
    statement. *)
Theorem patch_changes_iff_transformed (content out : text) :
  patch content = Some out →
  length content ≤ length out
  ∧ (out = content ↔
     ∀ i, occurs_at pattern content i →
          following_statement content (i + length pattern) = None).
Proof.
  rewrite patch_rewrite_part. intros [= <-]. split; [|split].
  - by apply (rewrite_part_length content (length content)).
  - intros Heq i Hi.
    destruct (following_statement content (i + length pattern))
      as [stmt|] eqn:Hstmt; [|done].
    pose proof (occurs_at_length _ _ _ Hi pattern_nonempty) as Hlen.
    pose proof (occurs_at_split _ _ _ Hi ltac:(lia)) as Hc.
    assert (length (take i content) = i) as HA
      by (apply length_take_le; lia).
    set (a := take i content) in *.
    set (b := drop (i + length pattern) content) in *.
    clearbody a b. subst content. subst i.
    apply (f_equal length) in Heq. revert Heq.
    rewrite rewrite_part_anchor, !length_app, Nat.add_0_l.
    rewrite (replace_user_id_transformed _ _ _ Hstmt), block_length.
    pose proof (rewrite_part_length (a ++ pattern ++ b) (length a) a 0
                  ltac:(done)).
    pose proof (rewrite_part_length (a ++ pattern ++ b) (length b) b
                  (length a + length pattern) ltac:(done)).
    rewrite pattern_length in *. lia.
  - intros Hnone.
    apply (rewrite_part_none_transformed content Hnone (length content)
             content [] []); [done|].
    by rewrite app_nil_r.
Qed.

Lemma patch_changes_iff_transformed_witness :
  let content := str "a " ++ pattern ++ str " response = 1" in
  patch content = Some content
  ∧ ∀ i, occurs_at pattern content i →
         following_statement content (i + length pattern) = None.
Proof.
  assert (patch (str "a " ++ pattern ++ str " response = 1")
          = Some (str "a " ++ pattern ++ str " response = 1")) as H
    by reflexivity.
  split; [exact H|].
  by apply (proj2 (patch_changes_iff_transformed _ _ H)).
Defined.

(** ** The statement the callback captures *)

Lemma occurs_at_lookup (p s : list ascii) (i k : nat) (c : ascii) :
  occurs_at p s i → p !! k = Some c → s !! (i + k) = Some c.
Proof.
  intros Hocc Hk. rewrite <-lookup_drop.
  by apply (prefix_lookup_Some p).
Qed.

(** X1.  When both searches of the callback succeed, the [response =]
    found lies at or after the end of the match, the [;] found lies after
    the whole lexeme and inside the text, and the statement captured begins
    with [response =], ends with its only [;] and is a part of the text
    that follows the match. *)
Theorem captured_statement_shape
    (content : text) (m : Match) (next_response response_end : nat) :
  str_find resp content (m_end m) = Some next_response →
  str_find semi content next_response = Some response_end →
  let response_assignment :=
    slice content next_response (response_end + 1) in
  m_end m ≤ next_response
  ∧ next_response + length resp ≤ response_end < length content
  ∧ length response_assignment = response_end + 1 - next_response
  ∧ resp `prefix_of` response_assignment
  ∧ (∃ body, response_assignment = body ++ semi ∧ ";" ∉ body)
  ∧ occurs response_assignment (drop (m_end m) content).
Proof.
  intros Hr Hn stmt.
  pose proof Hr as ([Her Hr'] & Hocc & _)%str_find_Some.
  pose proof Hn as ([Hrn Hn'] & Hoccn & _)%str_find_Some.
  pose proof (occurs_at_length _ _ _ Hoccn semi_nonempty) as Hlen.
  change (length semi) with 1 in Hlen.
  assert (next_response + length resp ≤ response_end) as Hafter.
  { destruct (decide (next_response + length resp ≤ response_end));
      [done|].
    change (length resp) with 10 in *.
    assert (content !! response_end = Some ";") as Hsemi.
    { rewrite <-(Nat.add_0_r response_end).
      by apply (occurs_at_lookup semi). }
    assert (∃ k, k < 10 ∧ response_end = next_response + k)
      as (k & Hk & ->) by (exists (response_end - next_response); lia).
    assert (∃ c, resp !! k = Some c ∧ c ≠ ";") as (c & Hc & Hne).
    { do 10 (destruct k as [|k];
             [eexists; split; [reflexivity | discriminate]|]).
      lia. }
    assert (content !! (next_response + k) = Some c) as Hresp
      by exact (occurs_at_lookup _ _ _ _ _ Hocc Hc).
    rewrite Hresp in Hsemi. congruence. }
  assert (length stmt = response_end + 1 - next_response) as Hstmt.
  { unfold stmt, slice. rewrite length_take, length_drop. lia. }
  split_and!; [done|done|lia|done| | |].
  - destruct Hocc as [k Hk]. unfold stmt, slice. rewrite Hk.
    rewrite take_app_ge by lia. by apply prefix_app_r.
  - apply (following_statement_shape content (m_end m)).
    by apply following_statement_intro.
  - unfold stmt, slice.
    exists (take (next_response - m_end m) (drop (m_end m) content)),
           (drop (response_end + 1 - next_response)
              (drop next_response content)).
    rewrite take_drop.
    replace (drop next_response content)
      with (drop (next_response - m_end m) (drop (m_end m) content)).
    + by rewrite take_drop.
    + rewrite drop_drop. f_equal. lia.
Qed.

Lemma captured_statement_shape_witness :
  let content := pattern ++ str " x; response = f(1); y;" in
  let m := match_at pattern 0 in
  str_find resp content (m_end m) = Some 73
  ∧ str_find semi content 73 = Some 88
  ∧ slice content 73 (88 + 1) = str "response = f(1);"
  ∧ resp `prefix_of` slice content 73 (88 + 1).
Proof.
  split; [reflexivity|]. split; [reflexivity|]. split; [reflexivity|].
  exact (proj1 (proj2 (proj2 (proj2
    (captured_statement_shape (pattern ++ str " x; response = f(1); y;")
       (match_at pattern 0) 73 88 eq_refl eq_refl))))).
Defined.

Lemma replace_user_id_skipped_iff content (i : nat) :
  replace_user_id content (match_at pattern i) = pattern
  ↔ following_statement content (i + length pattern) = None.
Proof.
  split; [|apply replace_user_id_skipped].
  destruct (following_statement content (i + length pattern))
    as [stmt|] eqn:Hstmt; [|done].
  rewrite (replace_user_id_transformed _ _ _ Hstmt).
  intros H. apply (f_equal length) in H.
  rewrite block_length, pattern_length in H. lia.
Qed.

(** X2.  The anchors the callback leaves unchanged form a tail of the
    anchors: when the match at one offset is returned as it is, so is the
    match at every later offset; when a match is replaced by a block, so is
    every earlier one. *)
Theorem skipped_anchors_form_tail (content : text) (i j : nat) :
  i ≤ j →
  replace_user_id content (match_at pattern i) = pattern →
  replace_user_id content (match_at pattern j) = pattern.
Proof.
  rewrite !replace_user_id_skipped_iff. intros Hij.
  apply following_statement_None_mono. lia.
Qed.

Lemma skipped_anchors_form_tail_witness :
  let content :=
    pattern ++ str " response = 1; " ++ pattern ++ str " x " ++ pattern in
  replace_user_id content (match_at pattern 0)
  = block (str "response = 1;")
  ∧ replace_user_id content (match_at pattern 84) = pattern
  ∧ replace_user_id content (match_at pattern 156) = pattern.
Proof.
  assert (replace_user_id
            (pattern ++ str " response = 1; " ++ pattern
               ++ str " x " ++ pattern)
            (match_at pattern 84) = pattern) as H by reflexivity.
  split; [reflexivity|]. split; [exact H|].
  apply (skipped_anchors_form_tail _ 84 156); [lia | exact H].
Defined.

(** X3.  Two matches with no [response =] beginning between their ends
    capture the same statement: the callback returns the same text for
    both. *)
Theorem adjacent_anchors_share_statement
    (content : text) (i j next_response : nat) :
  str_find resp content (i + length pattern) = Some next_response →
  i ≤ j → j + length pattern ≤ next_response →
  replace_user_id content (match_at pattern j)
  = replace_user_id content (match_at pattern i).
Proof.
  intros Hr Hij Hj.
  assert (str_find resp content (j + length pattern) = Some next_response)
    as Hr'.
  { apply str_find_Some in Hr as ([? ?] & Hocc & Hfirst).
    apply str_find_Some. split_and!; [lia|lia|done|].
    intros k Hk. apply Hfirst. lia. }
  rewrite !replace_user_id_following. unfold match_at, following_statement.
  cbn [m_end group0]. by rewrite Hr, Hr'.
Qed.

Lemma adjacent_anchors_share_statement_witness :
  let content := pattern ++ str " " ++ pattern ++ str " response = 1;" in
  str_find resp content (0 + length pattern) = Some 140
  ∧ replace_user_id content (match_at pattern 70)
    = replace_user_id content (match_at pattern 0)
  ∧ replace_user_id content (match_at pattern 0)
    = block (str "response = 1;").
Proof.
  split; [reflexivity|]. split; [|reflexivity].
  apply (adjacent_anchors_share_statement _ 0 70 140);
    [reflexivity | lia | vm_compute; lia].
Defined.

(** ** Patching twice *)

Lemma well_formedb_false content :
  well_formedb content = false →
  ∃ i, occurs_at pattern content i
       ∧ following_statement content (i + length pattern) = None.
Proof.
  unfold well_formedb.
  assert (∀ i, i ∈ occurrences pattern content 0 →
               occurs_at pattern content i) as Hocc.
  { intros i (j & -> & _ & Hj)%occurrences_spec. done. }
  revert Hocc. generalize (occurrences pattern content 0).
  induction l as [|i l IH]; intros Hocc; cbn [forallb]; [done|].
  destruct (following_statement content (i + length pattern)) eqn:E.
  - cbn [andb]. intros H. apply IH; [|done].
    intros k Hk. apply Hocc. by right.
  - intros _. exists i. split; [|done]. apply Hocc. left.
Qed.

(** The first anchor without a following statement. *)
Lemma first_skipped content (i : nat) :
  occurs_at pattern content i →
  following_statement content (i + length pattern) = None →
  ∃ k, occurs_at pattern content k
       ∧ following_statement content (k + length pattern) = None
       ∧ ∀ j, occurs_at pattern content j → j < k →
              is_Some (following_statement content (j + length pattern)).
Proof.
  revert i. induction i as [i IH] using lt_wf_ind. intros Hi Hnone.
  destruct (decide (Forall
    (λ j, i ≤ j ∨ is_Some (following_statement content (j + length pattern)))
    (occurrences pattern content 0))) as [Hall|Hex].
  - exists i. split_and!; [done..|]. intros j Hj Hlt.
    rewrite Forall_forall in Hall. destruct (Hall j) as [?|?]; [|lia|done].
    apply occurrences_spec. exists j. split_and!; [done| |done].
    pose proof (occurs_at_length _ _ _ Hj pattern_nonempty). lia.
  - apply not_Forall_Exists in Hex; [|solve_decision].
    apply Exists_exists in Hex as (j & Hj & Hnot).
    apply occurrences_spec in Hj as (j' & -> & _ & Hj). simpl in *.
    apply (IH j'); [|done|].
    + destruct (decide (j' < i)); [done|]. destruct Hnot. left. lia.
    + destruct (following_statement content (j' + length pattern)) eqn:E;
        [|done].
      destruct Hnot. right. by eexists.
Qed.

(** The scan of a part that ends before [bound] leaves no anchor when the
    anchors that end before [bound] have a following statement. *)
Lemma rewrite_part_removes_anchor_before content (bound : nat) :
  (∀ i, occurs_at pattern content i → i + length pattern ≤ bound →
        is_Some (following_statement content (i + length pattern))) →
  ∀ n s x y, length s ≤ n → content = x ++ s ++ y →
             length x + length s ≤ bound →
             ¬ occurs pattern (rewrite_part content (length x) s).
Proof.
  intros Hwf. induction n as [|n IH]; intros s x y Hlen Hc Hb.
  - destruct s; [|simpl in Hlen; lia].
    rewrite rewrite_part_no_anchor; by apply occursb_false.
  - destruct (occursb pattern s) eqn:E.
    + apply occursb_occurs in E as (a & b & ->).
      rewrite !length_app in Hlen, Hb. rewrite pattern_length in Hlen.
      rewrite rewrite_part_anchor.
      destruct (Hwf (length x + length a)) as [stmt Hstmt]; [|lia|].
      { replace content with ((x ++ a) ++ pattern ++ (b ++ y))
          by by rewrite Hc, <-!(assoc_L (++)).
        rewrite <-length_app. apply occurs_at_app. }
      rewrite (replace_user_id_transformed _ _ _ Hstmt).
      destruct (following_statement_shape _ _ _ Hstmt) as (body & -> & ?).
      apply block_no_anchor; [| |done].
      * apply (IH a x (pattern ++ b ++ y)); [lia| |lia].
        by rewrite Hc, <-!(assoc_L (++)).
      * rewrite <-!length_app.
        replace ((x ++ a) ++ pattern) with (x ++ a ++ pattern)
          by by rewrite (assoc_L (++)).
        apply (IH b _ y); [lia| |rewrite !length_app; lia].
        by rewrite Hc, <-!(assoc_L (++)).
    + apply occursb_false in E. by rewrite rewrite_part_no_anchor.
Qed.

(** Patching the output again changes nothing, whatever the input. *)
Lemma patch_twice (content : text) :
  patch (rewrite_part content 0 content)
  = Some (rewrite_part content 0 content).
Proof.
  destruct (well_formedb content) eqn:Hwf.
  - apply well_formedb_spec in Hwf.
    rewrite patch_rewrite_part, rewrite_part_no_anchor; [done|].
    apply (rewrite_part_removes_anchor content Hwf (length content)
             content [] []); [done|].
    by rewrite app_nil_r.
  - apply well_formedb_false in Hwf as (i0 & Hi0 & Hnone0).
    destruct (first_skipped content i0 Hi0 Hnone0)
      as (k & Hk & Hnone & Hbefore).
    pose proof (occurs_at_length _ _ _ Hk pattern_nonempty) as Hlen.
    pose proof (occurs_at_split _ _ _ Hk ltac:(lia)) as Hc.
    assert (length (take k content) = k) as Ha
      by (apply length_take_le; lia).
    set (a := take k content) in *.
    set (post := drop (k + length pattern) content) in *.
    set (out := rewrite_part content 0 a ++ pattern ++ post).
    assert (rewrite_part content 0 content = out) as ->.
    { rewrite Hc at 2. rewrite rewrite_part_anchor.
      rewrite Nat.add_0_l, Ha. unfold out. do 2 f_equal.
      - by apply replace_user_id_skipped.
      - replace (k + length pattern) with (length (a ++ pattern))
          by (rewrite length_app; lia).
        apply (rewrite_part_all_skipped content (k + length pattern) Hnone
                 (length post) post (a ++ pattern) []); [done| |].
        + rewrite length_app. lia.
        + by rewrite app_nil_r, <-(assoc_L (++)). }
    assert (¬ occurs pattern (rewrite_part content 0 a)) as Hclean.
    { apply (rewrite_part_removes_anchor_before content k) with
        (n := length a) (x := []) (s := a) (y := pattern ++ post);
        [|done|done|simpl; lia].
      intros j Hj Hjk. apply Hbefore; [done|]. rewrite pattern_length in Hjk.
      lia. }
    assert (following_statement post 0 = None) as Hpost.
    { rewrite <-Hnone, Hc, (assoc_L (++) a pattern post).
      replace (k + length pattern) with (length (a ++ pattern) + 0)
        by (rewrite length_app; lia).
      by rewrite following_statement_app_r. }
    set (b := rewrite_part content 0 a) in *.
    assert (following_statement out (length b + length pattern) = None)
      as Hout.
    { unfold out. rewrite (assoc_L (++) b pattern post).
      replace (length b + length pattern) with (length (b ++ pattern) + 0)
        by (rewrite length_app; lia).
      by rewrite following_statement_app_r. }
    unfold out at 1. rewrite patch_occurrence. fold out. f_equal.
    rewrite rewrite_part_no_anchor by done. unfold out at 3. do 2 f_equal.
    + by apply replace_user_id_skipped.
    + replace (length b + length pattern) with (length (b ++ pattern))
        by (rewrite length_app; lia).
      apply (rewrite_part_all_skipped out (length b + length pattern) Hout
               (length post) post (b ++ pattern) []); [done| |].
      * rewrite length_app. lia.
      * unfold out. by rewrite app_nil_r, <-(assoc_L (++)).
Qed.

(** X4.  The transformation is idempotent on every text, whether or not
    all its anchor occurrences have a following statement: patching the
    output returns the output. *)
Theorem patch_idempotent (content out : text) :
  patch content = Some out → patch out = Some out.
Proof.
  rewrite patch_rewrite_part. intros [= <-]. apply patch_twice.
Qed.

Lemma patch_idempotent_witness :
  let content :=
    pattern ++ str " response = 1; " ++ pattern ++ str " x " ++ pattern in
  let out :=
    block (str "response = 1;") ++ str " response = 1; " ++ pattern
      ++ str " x " ++ pattern in
  patch content = Some out ∧ patch out = Some out.
Proof.
  assert (patch (pattern ++ str " response = 1; " ++ pattern
                   ++ str " x " ++ pattern)
          = Some (block (str "response = 1;") ++ str " response = 1; "
                    ++ pattern ++ str " x " ++ pattern)) as H
    by reflexivity.
  split; [exact H|]. exact (patch_idempotent _ _ H).
Defined.

(** ** Runs of the script *)

(** X6.  The file is overwritten in place.  When it cannot be opened for
    writing the run raises and leaves the world as it was; when the device
    takes only the first [k] characters of the new text the run raises,
    the file holds those [k] characters instead of the new text, and
    nothing is printed. *)
Theorem write_failure_behaviour (w : world) (content new : text) :
  file w = Some content → readable w = true → patch content = Some new →
  (writable w = false → main w = (w, Raise PermissionError))
  ∧ (writable w = true →
     ∀ k, capacity w = Some k → k < length new →
          ∃ w', main w = (w', Raise OSError)
                ∧ file w' = Some (take k new)
                ∧ file w' ≠ Some new
                ∧ stdout w' = stdout w).
Proof.
  intros Hfile Hread. rewrite patch_rewrite_part. intros [= <-].
  rewrite main_main_callback, main_callback_run, Hfile, Hread.
  unfold write_target. split.
  - by intros ->.
  - intros -> k -> Hk. apply Nat.ltb_lt in Hk. rewrite Hk.
    eexists. split_and!; [done..| |done].
    cbn [file]. intros [= H]. apply (f_equal length) in H.
    apply Nat.ltb_lt in Hk. rewrite length_take in H. lia.
Qed.

Lemma write_failure_behaviour_witness :
  let content := pattern ++ response_statement (str "ok") in
  let locked := mkWorld (Some content) true false None [] in
  let full := mkWorld (Some content) true true (Some 5) [] in
  main locked = (locked, Raise PermissionError)
  ∧ ∃ w', main full = (w', Raise OSError)
          ∧ file w' = Some (str "std::")
          ∧ stdout w' = [].
Proof.
  assert (patch (pattern ++ response_statement (str "ok"))
          = Some (block (response_statement (str "ok"))
                  ++ response_statement (str "ok"))) as Hp by reflexivity.
  split.
  - apply (proj1 (write_failure_behaviour
      (mkWorld (Some (pattern ++ response_statement (str "ok")))
         true false None []) _ _ eq_refl eq_refl Hp)).
    reflexivity.
  - destruct (proj2 (write_failure_behaviour
      (mkWorld (Some (pattern ++ response_statement (str "ok")))
         true true (Some 5) []) _ _ eq_refl eq_refl Hp) eq_refl 5 eq_refl)
      as (w' & Hrun & Hfile & _ & Hout); [vm_compute; lia|].
    exists w'. split_and!; [exact Hrun | | exact Hout].
    rewrite Hfile. reflexivity.
Defined.

(** A run that ends normally leaves the permissions and the room of the
    device as they were. *)
Lemma main_success (w w1 : world) :
  main w = (w1, Ok ()) →
  ∃ content,
    file w = Some content ∧ readable w = true ∧ writable w = true
    ∧ (∀ n, capacity w = Some n →
            length (rewrite_part content 0 content) ≤ n)
    ∧ w1 = mkWorld (Some (rewrite_part content 0 content)) true true
             (capacity w) (stdout w ++ [acknowledgment]).
Proof.
  rewrite main_main_callback, main_callback_run.
  destruct (file w) as [content|] eqn:Hfile; [|done].
  destruct (readable w) eqn:Hread; [|done].
  unfold write_target, print. cbn [file readable writable capacity stdout].
  destruct (writable w) eqn:Hwrite; [|done].
  destruct (capacity w) as [n|] eqn:Hcap.
  - destruct (Nat.ltb_spec n (length (rewrite_part content 0 content)));
      [done|].
    cbn [file readable writable capacity stdout]. rewrite ?Hread, ?Hwrite.
    intros [= <-]. exists content. split_and!; [done..| |done].
    by intros ? [= <-].
  - cbn [file readable writable capacity stdout]. rewrite ?Hread, ?Hwrite.
    intros [= <-]. exists content. split_and!; done.
Qed.

(** X7.  After a run that ends normally, running the script again on the
    file it wrote ends normally too and leaves the text of the file as the
    first run wrote it; each run prints its own acknowledgment. *)
Theorem second_run_keeps_file (w w1 : world) :
  main w = (w1, Ok ()) →
  ∃ w2, main w1 = (w2, Ok ())
        ∧ file w2 = file w1
        ∧ stdout w2 = stdout w ++ [acknowledgment; acknowledgment].
Proof.
  intros (content & _ & _ & _ & Hroom & ->)%main_success.
  pose proof (patch_twice content) as Htwice.
  rewrite patch_rewrite_part in Htwice. injection Htwice as Htwice.
  rewrite main_main_callback, main_callback_run. cbn [file readable].
  rewrite Htwice. unfold write_target, print.
  cbn [writable capacity file readable stdout].
  destruct (capacity w) as [n|] eqn:Hcap.
  - destruct (Nat.ltb_spec n (length (rewrite_part content 0 content)))
      as [Hlt|_].
    + specialize (Hroom n eq_refl). lia.
    + eexists. split_and!; [done..|]. cbn [stdout].
      by rewrite <-(assoc_L (++)).
  - eexists. split_and!; [done..|]. cbn [stdout].
    by rewrite <-(assoc_L (++)).
Qed.

Lemma second_run_keeps_file_witness :
  let w :=
    mkWorld (Some (pattern ++ response_statement (str "ok"))) true true
      (Some 400) [] in
  main w = ((main w).1, Ok ())
  ∧ ∃ w2, main (main w).1 = (w2, Ok ())
          ∧ file w2 = file (main w).1
          ∧ stdout w2 = [acknowledgment; acknowledgment].
Proof.
  set (w := mkWorld (Some (pattern ++ response_statement (str "ok")))
              true true (Some 400) []).
  assert (main w = ((main w).1, Ok ())) as H1 by (vm_compute; reflexivity).
  split; [exact H1|].
  exact (second_run_keeps_file _ _ H1).
Defined.

(** X8.  The acknowledgment tells nothing about replacements: on a file
    in which no anchor occurrence has a following statement (or that holds
    no anchor at all) the script writes the same text back and still
    prints the acknowledgment. *)
Theorem acknowledgment_without_replacement (w : world) (content : text) :
  file w = Some content → readable w = true → writable w = true →
  (∀ n, capacity w = Some n → length content ≤ n) →
  (∀ i, occurs_at pattern content i →
        following_statement content (i + length pattern) = None) →
  ∃ w', main w = (w', Ok ())
        ∧ file w' = Some content
        ∧ stdout w' = stdout w ++ [acknowledgment].
Proof.
  intros Hfile Hread Hwrite Hcap Hnone.
  rewrite main_main_callback, main_callback_run, Hfile, Hread.
  assert (rewrite_part content 0 content = content) as ->.
  { apply (rewrite_part_none_transformed content Hnone (length content)
             content [] []); [done|].
    by rewrite app_nil_r. }
  unfold write_target, print. rewrite Hwrite.
  destruct (capacity w) as [n|] eqn:Hn.
  - destruct (Nat.ltb_spec n (length content)) as [Hlt|_].
    + specialize (Hcap n eq_refl). lia.
    + by eexists.
  - by eexists.
Qed.

Lemma acknowledgment_without_replacement_witness :
  let content := str "// " ++ pattern ++ str " (no response here)" in
  let w := mkWorld (Some content) true true (Some 1000) [str "start"] in
  ∃ w', main w = (w', Ok ())
        ∧ file w' = Some content
        ∧ stdout w' = [str "start"; acknowledgment].
Proof.
  apply (acknowledgment_without_replacement
    (mkWorld (Some (str "// " ++ pattern ++ str " (no response here)"))
       true true (Some 1000) [str "start"])).
  - reflexivity.
  - reflexivity.
  - reflexivity.
  - intros n [= <-]. vm_compute. lia.
  - intros i Hi.
    apply (following_statement_None_mono _ 0); [lia | reflexivity].
Defined.

(** ** The value computed at line 21 *)

Lemma str_replace_pattern (s new : text) :
  str_replace s pattern new = substitute (λ _, new) (scan pattern 0 0 s).
Proof. done. Qed.

(** Wherever the text holds an anchor, the global replacement and the
    callback scan give different texts. *)
Lemma replacements_differ content :
  ∀ s pos, occurs pattern s →
           substitute (λ _, replacement) (scan pattern 0 pos s)
           ≠ rewrite_part content pos s.
Proof.
  unfold rewrite_part. induction s as [|c s IH]; intros pos Hs.
  - apply occurs_nil_r in Hs. by destruct pattern_nonempty.
  - rewrite scan_cons_0. destruct (startswith pattern (c :: s)) eqn:E.
    + unfold substitute. cbn [map concat render].
      rewrite replace_user_id_following. unfold match_at.
      cbn [m_end group0].
      destruct (following_statement content (pos + length pattern))
        as [stmt|] eqn:Hstmt.
      * apply following_statement_start in Hstmt as [k ->].
        intros H. apply (f_equal (λ l : list ascii, l !! 261)) in H.
        unfold block in H. rewrite <-!(assoc_L (++)) in H.
        rewrite lookup_app_l in H by (vm_compute; lia).
        rewrite lookup_app_r in H by (vm_compute; lia).
        by vm_compute in H.
      * intros H. apply (f_equal (λ l : list ascii, l !! 22)) in H.
        rewrite !lookup_app_l in H by (vm_compute; lia).
        by vm_compute in H.
    + apply startswith_false in E. apply occurs_cons in Hs as [?|Hs]; [done|].
      unfold substitute. cbn [map concat render app].
      intros [= H]. by apply (IH (S pos) Hs).
Qed.

(** The replacement text of line 13 brings no anchor. *)
Lemma replacement_no_anchor (x y : text) :
  ¬ occurs pattern x → ¬ occurs pattern y →
  ¬ occurs pattern (x ++ replacement ++ y).
Proof.
  intros Hx Hy. unfold replacement.
  rewrite <-!(assoc_L (++)), (assoc_L (++) x guard_lines).
  simpl app at 2.
  intros [H|H]%occurs_app_sep; [| |by apply notin_spec].
  - apply Hx. rewrite pattern_last in H |- *.
    eapply occurs_strip_r; [|done]. by apply notin_spec.
  - assert (spaces 24 ++ str "// Continue with original logic" ++ [nl]
              ++ spaces 24 ++ str "response =" ++ y
            = (spaces 24 ++ str "// Continue with original logic")
                ++ nl :: ((spaces 24 ++ str "re")
                            ++ "s" :: (str "pon" ++ "s" :: str "e =" ++ y)))
      as E by by rewrite <-!(assoc_L (++)).
    rewrite E in H. clear E.
    apply occurs_app_sep in H as [H|H]; [| |by apply notin_spec].
    + by apply occursb_false in H.
    + rewrite pattern_first in H.
      apply occurs_strip_l in H; [|by apply notin_spec].
      apply occurs_cons in H as [H|H].
      { apply prefix_cons_inv_2 in H. simpl in H.
        by apply prefix_cons_inv_1 in H. }
      apply occurs_strip_l in H; [|by apply notin_spec].
      apply occurs_cons in H as [H|H].
      { apply prefix_cons_inv_2 in H. simpl in H.
        by apply prefix_cons_inv_1 in H. }
      apply occurs_strip_l in H; [|by apply notin_spec].
      apply Hy. by rewrite pattern_first.
Qed.

Lemma str_replace_no_anchor :
  ∀ n s pos, length s ≤ n →
             ¬ occurs pattern
                 (substitute (λ _, replacement) (scan pattern 0 pos s)).
Proof.
  induction n as [|n IH]; intros s pos Hlen.
  - destruct s; [|simpl in Hlen; lia]. simpl.
    by apply occursb_false.
  - destruct (occursb pattern s) eqn:E.
    + apply occursb_occurs in E as (a & b & ->).
      rewrite !length_app, pattern_length in Hlen.
      rewrite scan_app_match
        by auto using pattern_nonempty, pattern_border_free.
      rewrite substitute_app. unfold substitute at 2.
      cbn [map concat render].
      apply replacement_no_anchor; apply IH; lia.
    + apply occursb_false in E.
      by rewrite scan_no_occurrence, substitute_Unmatched.
Qed.

(** X9.  The text computed at line 21 by the global replacement holds no
    anchor, whatever the input, and it is the text the script writes
    exactly when the input holds no anchor: on every input with an anchor
    the value of line 21 differs from the one written. *)
Theorem preliminary_value (content out : text) :
  patch content = Some out →
  ¬ occurs pattern (str_replace content pattern replacement)
  ∧ (str_replace content pattern replacement = out
     ↔ ¬ occurs pattern content).
Proof.
  rewrite patch_rewrite_part, str_replace_pattern. intros [= <-]. split.
  - by apply (str_replace_no_anchor (length content)).
  - split.
    + intros Heq Hocc. by apply (replacements_differ content content 0).
    + intros Hnone.
      by rewrite rewrite_part_no_anchor, scan_no_occurrence,
           substitute_Unmatched.
Qed.

Lemma preliminary_value_witness :
  let content := pattern ++ str " response = 1" in
  patch content = Some content
  ∧ ¬ occurs pattern (str_replace content pattern replacement)
  ∧ str_replace content pattern replacement
    = replacement ++ str " response = 1".
Proof.
  assert (patch (pattern ++ str " response = 1")
          = Some (pattern ++ str " response = 1")) as H by reflexivity.
  split; [exact H|]. split; [|reflexivity].
  exact (proj1 (preliminary_value _ _ H)).
Defined.

(** ** What the callback looks at *)

(** X10.  The text the callback returns for an anchor depends only on the
    text that follows the anchor: the same anchor followed by the same
    text is replaced alike, whatever precedes it. *)
Theorem replacement_depends_on_following_text (x x' y : text) :
  replace_user_id (x ++ pattern ++ y) (match_at pattern (length x))
  = replace_user_id (x' ++ pattern ++ y) (match_at pattern (length x')).
Proof.
  assert (∀ z, replace_user_id (z ++ pattern ++ y)
                 (match_at pattern (length z))
               = match following_statement y 0 with
                 | Some stmt => block stmt
                 | None => pattern
                 end) as H.
  { intros z. rewrite replace_user_id_following. unfold match_at.
    cbn [m_end group0]. rewrite (assoc_L (++) z pattern y).
    replace (length z + length pattern) with (length (z ++ pattern) + 0)
      by (rewrite length_app; lia).
    by rewrite following_statement_app_r. }
  by rewrite !H.
Qed.
